(** * Read-through postings-list cache over immutable index segments

    A shallow embedding of [src/dbnode/storage/index/read_through_segment.go]
    (package [index] of m3): the [ReadThroughSegment] wrapper, the
    [readThroughSegmentReader] it vends, and the collaborators they call.

    Go pointers to caches are addresses into a store of cache objects, so
    that two handles may alias; method calls on collaborators are recorded
    in a trace, so that the order of calls can be stated.  The mutexes of
    the source are not modelled: every method body runs atomically here. *)

From Stdlib.Strings Require Import String Byte.
From Stdlib Require Import NArith ZArith.
From stdpp Require Import gmap strings list fin_maps.

(** ** Values shared by all packages *)

(** [[]byte] *)
Definition bytes := list Byte.byte.

(** The Go conversion [string(b)] of a byte slice. *)
Definition string_of_bytes (b : bytes) : string := string_of_list_byte b.

(** [uuid.UUID]: an opaque 128-bit identifier. *)
Definition UUID := N.

(** Go [error] values.  The two sentinels are the package variables of
    the source; [errExternal] stands for every error produced by a
    collaborator. *)
Inductive error :=
| errCantGetReaderFromClosedSegment
| errCantCloseClosedSegment
| errExternal (msg : string).

(** A Go result pair [(T, error)] with the usual convention that the
    value is meaningful only when the error is nil. *)
Inductive result (A : Type) :=
| Ok (a : A)
| Err (e : error).
Arguments Ok {A} a.
Arguments Err {A} e.

#[global] Instance error_eq_dec : EqDecision error.
Proof. solve_decision. Defined.

(** ** Package [postings] *)
Module postings.

(** A postings list handle: the matching document ids in document-id
    order, with its memory footprint estimate. *)
Record List := mkList {
  ids : list N;
  memory_bytes : nat
}.

#[global] Instance List_eq_dec : EqDecision List.
Proof. solve_decision. Defined.

End postings.

(** ** Package [doc] *)
Module doc.

Record Field := mkField { Name : bytes; Value : bytes }.

Record Metadata := mkMetadata { ID : bytes; Fields : list Field }.

Inductive Document :=
| DocumentOfMetadata (m : Metadata)
| DocumentOfEncoded (b : bytes).

End doc.

(** ** Package [m3ninx/index] *)
Module index.

(** [index.CompiledRegex].  The regexp syntax tree of Go's
    [regexp/syntax] is represented by the value of its [String()]
    method; [Simple] is the regexp as the user wrote it. *)
Record CompiledRegex := mkCompiledRegex {
  Simple : string;
  FSTSyntax_String : string;
  PrefixBegin : bytes;
  PrefixEnd : bytes
}.

End index.

(** ** Package [segment]: the underlying segment and its reader *)
Module segment.

(** [segment.Reader] of an immutable segment.  The segment is sealed,
    so each query is a function of its arguments; iterators are
    represented by the sequence they yield. *)
Record Reader := mkReader {
  MatchRegexp : bytes -> index.CompiledRegex -> result postings.List;
  MatchTerm : bytes -> bytes -> result postings.List;
  MatchField : bytes -> result postings.List;
  MatchAll : result postings.List;
  AllDocs : result (list (N * doc.Metadata));
  Metadata : N -> result doc.Metadata;
  MetadataIterator : postings.List -> result (list doc.Metadata);
  Doc : N -> result doc.Document;
  Docs : postings.List -> result (list doc.Document);
  Fields : result (list bytes);
  FieldsPostingsList : result (list (bytes * postings.List));
  ContainsField : bytes -> result bool;
  Terms : bytes -> result (list (bytes * postings.List));
  Close : option error
}.

(** [segment.ImmutableSegment], as far as the wrapper calls it. *)
Record ImmutableSegment := mkImmutableSegment {
  seg_Reader : result Reader;
  seg_Close : option error;
  seg_FieldsIterable : list bytes;
  seg_TermsIterable : bytes -> list bytes;
  seg_ContainsID : bytes -> result bool;
  seg_ContainsField : bytes -> result bool;
  seg_FreeMmap : option error;
  seg_Size : Z
}.

End segment.

(** ** Package [search] *)
Module search.

(** [search.Query]: only its canonical string form is used here. *)
Record Query := mkQuery { Query_String : string }.

End search.

(** ** The postings-list cache *)
Module PostingsListCache.

(** Modelled from the spec: the [PostingsListCache] type and its
    methods ([GetRegexp], [GetTerm], [GetField], [GetSearch], the four
    [Put]s, [PurgeSegment], [CachedPatterns]) are not among the
    sources.  What follows is the cache of the specification: one LRU
    per pattern kind with a byte and an entry bound, a back-index from
    segment id to the keys cached for it, a per-kind enable flag, and a
    mark for purged segments that makes a late put a no-op.  Each LRU
    has a single shard. *)
Inductive PatternType :=
| PatternTypeRegexp
| PatternTypeTerm
| PatternTypeField
| PatternTypeSearch.

#[global] Instance PatternType_eq_dec : EqDecision PatternType.
Proof. solve_decision. Defined.

Definition allKinds : list PatternType :=
  [PatternTypeRegexp; PatternTypeTerm; PatternTypeField; PatternTypeSearch].

(** Pattern key [(segment-id, kind, field, pattern)]; the pattern is
    empty for [PatternTypeField], the field is empty for
    [PatternTypeSearch]. *)
Record Key := mkKey {
  segmentUUID : UUID;
  patternType : PatternType;
  field : string;
  pattern : string
}.

#[global] Instance Key_eq_dec : EqDecision Key.
Proof. solve_decision. Defined.

(** Kind-local identifier of an entry in the back-index. *)
Definition SubKey : Type := PatternType * (string * string).

Definition subKey (k : Key) : SubKey := (patternType k, (field k, pattern k)).

Definition keyOf (u : UUID) (sk : SubKey) : Key :=
  mkKey u (fst sk) (fst (snd sk)) (snd (snd sk)).

(** A cache entry; its recency token is its position in the LRU list
    (most recently used first). *)
Record Entry := mkEntry {
  entryKey : Key;
  entryPostings : postings.List;
  entryBytes : nat
}.

(** A per-kind LRU.  A bound that is [None] is not active. *)
Record LRU := mkLRU {
  maxBytes : option nat;
  maxEntries : option nat;
  entries : list Entry
}.

Definition totalBytes (es : list Entry) : nat :=
  foldr (fun e acc => entryBytes e + acc) 0 es.

Definition exceeds (bound : option nat) (n : nat) : bool :=
  match bound with
  | None => false
  | Some m => m <? n
  end.

(** Invariant 2 of the data model fails for [es]. *)
Definition over (l : LRU) (es : list Entry) : bool :=
  exceeds (maxBytes l) (totalBytes es) || exceeds (maxEntries l) (length es).

Definition lruLookup (k : Key) (es : list Entry) : option Entry :=
  List.find (fun e => bool_decide (entryKey e = k)) es.

Definition lruDrop (k : Key) (es : list Entry) : list Entry :=
  filter (fun e => entryKey e <> k) es.

(** Modelled from the spec: [get(key)] of an LRU shard returns the value
    and promotes it to most recently used, or misses. *)
Definition lruGet (k : Key) (l : LRU) : option postings.List * LRU :=
  match lruLookup k (entries l) with
  | Some e =>
      (Some (entryPostings e),
       mkLRU (maxBytes l) (maxEntries l) (e :: lruDrop k (entries l)))
  | None => (None, l)
  end.

(** Modelled from the spec: evict least recently used entries until the
    bounds hold; returns the entries kept and the keys evicted. *)
Fixpoint evict (fuel : nat) (l : LRU) (es : list Entry) : list Entry * list Key :=
  match fuel with
  | O => (es, [])
  | S fuel' =>
      if over l es then
        match last es with
        | Some e =>
            let (kept, gone) := evict fuel' l (removelast es) in
            (kept, entryKey e :: gone)
        | None => (es, [])
        end
      else (es, [])
  end.

(** Modelled from the spec: [put(key, value, bytes)] of an LRU shard
    inserts, replaces an entry of the same key, then evicts. *)
Definition lruPut (k : Key) (pl : postings.List) (size : nat) (l : LRU)
  : LRU * list Key :=
  let es := mkEntry k pl size :: lruDrop k (entries l) in
  let (kept, gone) := evict (length es) l es in
  (mkLRU (maxBytes l) (maxEntries l) kept, gone).

(** Modelled from the spec: [remove(key)] of an LRU shard deletes the
    entry if present and reports whether it was. *)
Definition lruRemove (k : Key) (l : LRU) : bool * LRU :=
  (bool_decide (is_Some (lruLookup k (entries l))),
   mkLRU (maxBytes l) (maxEntries l) (lruDrop k (entries l))).

(** Modelled from the spec: the cache front-end, with its enable flag
    per kind, the four LRUs, the back-index and the purged marks. *)
Record t := mkCache {
  cache_regexp : bool;
  cache_terms : bool;
  cache_searches : bool;
  lruRegexp : LRU;
  lruTerm : LRU;
  lruField : LRU;
  lruSearch : LRU;
  backIndex : gmap N (list SubKey);
  purged : gset N
}.

Definition lruOf (pt : PatternType) (c : t) : LRU :=
  match pt with
  | PatternTypeRegexp => lruRegexp c
  | PatternTypeTerm => lruTerm c
  | PatternTypeField => lruField c
  | PatternTypeSearch => lruSearch c
  end.

Definition setLru (pt : PatternType) (l : LRU) (c : t) : t :=
  match pt with
  | PatternTypeRegexp =>
      mkCache (cache_regexp c) (cache_terms c) (cache_searches c)
        l (lruTerm c) (lruField c) (lruSearch c) (backIndex c) (purged c)
  | PatternTypeTerm =>
      mkCache (cache_regexp c) (cache_terms c) (cache_searches c)
        (lruRegexp c) l (lruField c) (lruSearch c) (backIndex c) (purged c)
  | PatternTypeField =>
      mkCache (cache_regexp c) (cache_terms c) (cache_searches c)
        (lruRegexp c) (lruTerm c) l (lruSearch c) (backIndex c) (purged c)
  | PatternTypeSearch =>
      mkCache (cache_regexp c) (cache_terms c) (cache_searches c)
        (lruRegexp c) (lruTerm c) (lruField c) l (backIndex c) (purged c)
  end.

Definition setBackIndex (b : gmap N (list SubKey)) (c : t) : t :=
  mkCache (cache_regexp c) (cache_terms c) (cache_searches c)
    (lruRegexp c) (lruTerm c) (lruField c) (lruSearch c) b (purged c).

(** The enable flag of a kind; field-presence results go with terms. *)
Definition enabled (pt : PatternType) (c : t) : bool :=
  match pt with
  | PatternTypeRegexp => cache_regexp c
  | PatternTypeTerm => cache_terms c
  | PatternTypeField => cache_terms c
  | PatternTypeSearch => cache_searches c
  end.

(** Back-index maintenance. *)
Definition indexAdd (k : Key) (b : gmap N (list SubKey)) : gmap N (list SubKey) :=
  let old := default [] (b !! segmentUUID k) in
  if bool_decide (subKey k ∈ old) then b
  else <[segmentUUID k := subKey k :: old]> b.

Definition indexDrop (k : Key) (b : gmap N (list SubKey)) : gmap N (list SubKey) :=
  match b !! segmentUUID k with
  | Some old =>
      <[segmentUUID k := filter (fun sk => sk <> subKey k) old]> b
  | None => b
  end.

(** Modelled from the spec: what a [get] of the front-end returns,
    without promoting; a disabled kind always misses. *)
Definition peek (k : Key) (c : t) : option postings.List :=
  if enabled (patternType k) c
  then entryPostings <$> lruLookup k (entries (lruOf (patternType k) c))
  else None.

Definition get (k : Key) (c : t) : option postings.List * t :=
  if enabled (patternType k) c then
    let (r, l') := lruGet k (lruOf (patternType k) c) in
    (r, setLru (patternType k) l' c)
  else (None, c).

Definition put (k : Key) (pl : postings.List) (c : t) : t :=
  if enabled (patternType k) c then
    if bool_decide (segmentUUID k ∈ purged c) then c
    else
      let (l', gone) :=
        lruPut k pl (postings.memory_bytes pl) (lruOf (patternType k) c) in
      let c' := setLru (patternType k) l' c in
      setBackIndex (foldr indexDrop (indexAdd k (backIndex c')) gone) c'
  else c.

Definition GetRegexp (u : UUID) (f p : string) :=
  get (mkKey u PatternTypeRegexp f p).
Definition GetTerm (u : UUID) (f p : string) :=
  get (mkKey u PatternTypeTerm f p).
Definition GetField (u : UUID) (f : string) :=
  get (mkKey u PatternTypeField f EmptyString).
Definition GetSearch (u : UUID) (q : string) :=
  get (mkKey u PatternTypeSearch EmptyString q).

Definition PutRegexp (u : UUID) (f p : string) :=
  put (mkKey u PatternTypeRegexp f p).
Definition PutTerm (u : UUID) (f p : string) :=
  put (mkKey u PatternTypeTerm f p).
Definition PutField (u : UUID) (f : string) :=
  put (mkKey u PatternTypeField f EmptyString).
Definition PutSearch (u : UUID) (q : string) (query : search.Query) :=
  put (mkKey u PatternTypeSearch EmptyString q).

(** Modelled from the spec: [purge_segment] takes the entry set of the
    segment out of the back-index, marks the segment purged, and removes
    each entry from its LRU.  Returns the number of entries removed. *)
Definition purgeOne (u : UUID) (sk : SubKey) (acc : nat * t) : nat * t :=
  let (n, c) := acc in
  let (was, l') := lruRemove (keyOf u sk) (lruOf (fst sk) c) in
  ((if was then S n else n), setLru (fst sk) l' c).

Definition PurgeSegment (u : UUID) (c : t) : nat * t :=
  let taken := default [] (backIndex c !! u) in
  let c' :=
    mkCache (cache_regexp c) (cache_terms c) (cache_searches c)
      (lruRegexp c) (lruTerm c) (lruField c) (lruSearch c)
      (delete u (backIndex c)) ({[u]} ∪ purged c) in
  foldr (purgeOne u) (0, c') taken.

(** Modelled from the spec: [iter_patterns] visits the entries of a
    segment, optionally of one kind, without promoting recency. *)
Record CachedPattern := mkCachedPattern {
  CacheKey : Key;
  Postings : postings.List
}.

Record CachedPatternsQuery := mkCachedPatternsQuery {
  PatternType_ : option PatternType
}.

Definition CachedPatternsResult := list CachedPattern.

Definition CachedPatterns (u : UUID) (q : CachedPatternsQuery) (c : t)
  : CachedPatternsResult :=
  let kinds :=
    match PatternType_ q with
    | Some pt => [pt]
    | None => allKinds
    end in
  flat_map
    (fun pt =>
       (fun e => mkCachedPattern (entryKey e) (entryPostings e)) <$>
         filter (fun e => segmentUUID (entryKey e) = u) (entries (lruOf pt c)))
    kinds.

(** A cache with nothing in it. *)
Definition NewPostingsListCache (regexp terms searches : bool)
    (bytesBound entriesBound : option nat) : t :=
  let l := mkLRU bytesBound entriesBound [] in
  mkCache regexp terms searches l l l l ∅ ∅.

(** Well-formed caches: within an LRU a key occurs once, an entry sits
    in the LRU of its kind, and it is listed in the back-index under
    its segment (invariant 1 of the data model, the direction that
    purge relies on). *)
Definition wfEntry (pt : PatternType) (c : t) (e : Entry) : Prop :=
  patternType (entryKey e) = pt /\
  subKey (entryKey e) ∈ default [] (backIndex c !! segmentUUID (entryKey e)).

Definition wfKind (c : t) (pt : PatternType) : Prop :=
  NoDup (entryKey <$> entries (lruOf pt c)) /\
  Forall (wfEntry pt c) (entries (lruOf pt c)).

Definition wf (c : t) : Prop := Forall (wfKind c) allKinds.

#[global] Instance wf_dec (c : t) : Decision (wf c).
Proof. unfold wf, wfKind, wfEntry. apply _. Defined.

(** An entry for segment [u] is stored in some LRU of [c]. *)
Definition holds (u : UUID) (c : t) : bool :=
  existsb
    (fun pt =>
       existsb (fun e => bool_decide (segmentUUID (entryKey e) = u))
         (entries (lruOf pt c)))
    allKinds.

End PostingsListCache.

(** ** The store of cache objects and the trace of calls *)

(** A [*PostingsListCache]: [None] is the nil pointer. *)
Definition addr := nat.
Definition handle := option addr.

Definition isNil (h : handle) : bool :=
  match h with
  | None => true
  | Some _ => false
  end.

(** Calls on the underlying segment and on the underlying reader. *)
Inductive SegmentCall :=
| CallSegReader
| CallSegClose
| CallSegFieldsIterable
| CallSegTermsIterable
| CallSegContainsID (id : bytes)
| CallSegContainsField (f : bytes)
| CallSegFreeMmap
| CallSegSize.

Inductive ReaderCall :=
| CallMatchRegexp (f : bytes) (c : index.CompiledRegex)
| CallMatchTerm (f t : bytes)
| CallMatchField (f : bytes)
| CallMatchAll
| CallAllDocs
| CallMetadata (id : N)
| CallMetadataIterator (pl : postings.List)
| CallDoc (id : N)
| CallDocs (pl : postings.List)
| CallFields
| CallFieldsPostingsList
| CallContainsField (f : bytes)
| CallTerms (f : bytes)
| CallClose.

(** What a run does to its collaborators, in program order.  Segments
    and readers are named by the id of the wrapper that calls them. *)
Inductive Event :=
| EvCacheGet (a : addr) (k : PostingsListCache.Key)
| EvCachePut (a : addr) (k : PostingsListCache.Key) (pl : postings.List)
| EvCachePurge (a : addr) (u : UUID)
| EvCachePatterns (a : addr) (u : UUID)
| EvSetClosed (u : UUID)
| EvSegment (u : UUID) (c : SegmentCall)
| EvReader (u : UUID) (c : ReaderCall).

Record World := mkWorld {
  store : gmap nat PostingsListCache.t;
  trace : list Event
}.

(** A computation either finishes with a value and a world, or panics
    (a method called through a nil or dangling cache pointer). *)
Inductive outcome (A : Type) :=
| Done (a : A) (w : World)
| Panic.
Arguments Done {A} a w.
Arguments Panic {A}.

Definition M (A : Type) : Type := World -> outcome A.

#[global] Instance M_ret : MRet M := fun A a w => Done a w.

#[global] Instance M_bind : MBind M := fun A B f m w =>
  match m w with
  | Done a w' => f a w'
  | Panic => Panic
  end.

Definition emit (e : Event) : M unit :=
  fun w => Done tt (mkWorld (store w) (trace w ++ [e])).

(** A method call on the cache behind [h]. *)
Definition callCache {A} (h : handle) (ev : addr -> Event)
    (f : PostingsListCache.t -> A * PostingsListCache.t) : M A :=
  fun w =>
    match h with
    | None => Panic
    | Some a =>
        match store w !! a with
        | None => Panic
        | Some c =>
            let (x, c') := f c in
            Done x (mkWorld (<[a := c']> (store w)) (trace w ++ [ev a]))
        end
    end.

Definition cacheGet (h : handle) (k : PostingsListCache.Key) : M (option postings.List) :=
  callCache h (fun a => EvCacheGet a k) (PostingsListCache.get k).

Definition cachePut (h : handle) (k : PostingsListCache.Key) (pl : postings.List) : M unit :=
  callCache h (fun a => EvCachePut a k pl)
    (fun c => (tt, PostingsListCache.put k pl c)).

Import PostingsListCache (mkKey, PatternTypeRegexp, PatternTypeTerm,
  PatternTypeField, PatternTypeSearch).

Definition cache_GetRegexp (h : handle) (u : UUID) (f p : string) :=
  cacheGet h (mkKey u PatternTypeRegexp f p).
Definition cache_GetTerm (h : handle) (u : UUID) (f p : string) :=
  cacheGet h (mkKey u PatternTypeTerm f p).
Definition cache_GetField (h : handle) (u : UUID) (f : string) :=
  cacheGet h (mkKey u PatternTypeField f EmptyString).
Definition cache_GetSearch (h : handle) (u : UUID) (q : string) :=
  cacheGet h (mkKey u PatternTypeSearch EmptyString q).

Definition cache_PutRegexp (h : handle) (u : UUID) (f p : string) (pl : postings.List) :=
  cachePut h (mkKey u PatternTypeRegexp f p) pl.
Definition cache_PutTerm (h : handle) (u : UUID) (f p : string) (pl : postings.List) :=
  cachePut h (mkKey u PatternTypeTerm f p) pl.
Definition cache_PutField (h : handle) (u : UUID) (f : string) (pl : postings.List) :=
  cachePut h (mkKey u PatternTypeField f EmptyString) pl.
Definition cache_PutSearch (h : handle) (u : UUID) (q : string)
    (query : search.Query) (pl : postings.List) :=
  cachePut h (mkKey u PatternTypeSearch EmptyString q) pl.

Definition cache_PurgeSegment (h : handle) (u : UUID) : M nat :=
  callCache h (fun a => EvCachePurge a u) (PostingsListCache.PurgeSegment u).

(** [CachedPatternForEachFn]: the visitor called on each pattern. *)
Definition CachedPatternForEachFn := PostingsListCache.CachedPattern -> M unit.

Fixpoint forEach {A} (fn : A -> M unit) (l : list A) : M unit :=
  match l with
  | [] => mret tt
  | x :: l' => fn x ;; forEach fn l'
  end.

Definition cache_CachedPatterns (h : handle) (u : UUID)
    (q : PostingsListCache.CachedPatternsQuery) (fn : CachedPatternForEachFn)
  : M PostingsListCache.CachedPatternsResult :=
  ps ← callCache h (fun a => EvCachePatterns a u)
         (fun c => (PostingsListCache.CachedPatterns u q c, c));
  forEach fn ps ;;
  mret ps.

(** ** Package [storage/index]: options and cache handles *)

(** [ReadThroughSegmentCaches] *)
Record ReadThroughSegmentCaches := mkCaches {
  SegmentPostingsListCache : handle;
  SearchPostingsListCache : handle
}.

(** [ReadThroughSegmentOptions] *)
Record ReadThroughSegmentOptions := mkOptions {
  CacheRegexp : bool;
  CacheTerms : bool;
  CacheSearches : bool
}.

(** ** [readThroughSegmentReader] *)
Module readThroughSegmentReader.

(** The reader struct.  Its [seg] back-pointer is read by no method
    and is left out. *)
Record t := mk {
  reader : segment.Reader;
  opts : ReadThroughSegmentOptions;
  uuid : UUID;
  caches : ReadThroughSegmentCaches
}.

(** [search.Searcher], applied to this reader: it may call any method
    of the reader it is given. *)
Definition Searcher := t -> M (result postings.List).

(** A call [s.reader.m(...)] whose answer is [r]. *)
Definition underlying {A} (s : t) (call : ReaderCall) (r : A) : M A :=
  emit (EvReader (uuid s) call) ;; mret r.

Definition MatchRegexp (s : t) (field : bytes) (c : index.CompiledRegex)
  : M (result postings.List) :=
  let cache := SegmentPostingsListCache (caches s) in
  if isNil cache || negb (CacheRegexp (opts s)) then
    underlying s (CallMatchRegexp field c) (segment.MatchRegexp (reader s) field c)
  else
    let fieldStr := string_of_bytes field in
    let patternStr := index.FSTSyntax_String c in
    hit ← cache_GetRegexp cache (uuid s) fieldStr patternStr;
    match hit with
    | Some pl => mret (Ok pl)
    | None =>
        res ← underlying s (CallMatchRegexp field c)
                (segment.MatchRegexp (reader s) field c);
        match res with
        | Ok pl => cache_PutRegexp cache (uuid s) fieldStr patternStr pl
        | Err _ => mret tt
        end ;;
        mret res
    end.

Definition MatchTerm (s : t) (field term : bytes) : M (result postings.List) :=
  let cache := SegmentPostingsListCache (caches s) in
  if isNil cache || negb (CacheTerms (opts s)) then
    underlying s (CallMatchTerm field term) (segment.MatchTerm (reader s) field term)
  else
    let fieldStr := string_of_bytes field in
    let patternStr := string_of_bytes term in
    hit ← cache_GetTerm cache (uuid s) fieldStr patternStr;
    match hit with
    | Some pl => mret (Ok pl)
    | None =>
        res ← underlying s (CallMatchTerm field term)
                (segment.MatchTerm (reader s) field term);
        match res with
        | Ok pl => cache_PutTerm cache (uuid s) fieldStr patternStr pl
        | Err _ => mret tt
        end ;;
        mret res
    end.

Definition MatchField (s : t) (field : bytes) : M (result postings.List) :=
  let cache := SegmentPostingsListCache (caches s) in
  if isNil cache || negb (CacheTerms (opts s)) then
    underlying s (CallMatchField field) (segment.MatchField (reader s) field)
  else
    let fieldStr := string_of_bytes field in
    hit ← cache_GetField cache (uuid s) fieldStr;
    match hit with
    | Some pl => mret (Ok pl)
    | None =>
        res ← underlying s (CallMatchField field)
                (segment.MatchField (reader s) field);
        match res with
        | Ok pl => cache_PutField cache (uuid s) fieldStr pl
        | Err _ => mret tt
        end ;;
        mret res
    end.

Definition MatchAll (s : t) : M (result postings.List) :=
  underlying s CallMatchAll (segment.MatchAll (reader s)).

Definition AllDocs (s : t) : M (result (list (N * doc.Metadata))) :=
  underlying s CallAllDocs (segment.AllDocs (reader s)).

Definition Metadata (s : t) (id : N) : M (result doc.Metadata) :=
  underlying s (CallMetadata id) (segment.Metadata (reader s) id).

Definition MetadataIterator (s : t) (pl : postings.List)
  : M (result (list doc.Metadata)) :=
  underlying s (CallMetadataIterator pl) (segment.MetadataIterator (reader s) pl).

Definition Doc (s : t) (id : N) : M (result doc.Document) :=
  underlying s (CallDoc id) (segment.Doc (reader s) id).

Definition Docs (s : t) (pl : postings.List) : M (result (list doc.Document)) :=
  underlying s (CallDocs pl) (segment.Docs (reader s) pl).

Definition Fields (s : t) : M (result (list bytes)) :=
  underlying s CallFields (segment.Fields (reader s)).

Definition FieldsPostingsList (s : t)
  : M (result (list (bytes * postings.List))) :=
  underlying s CallFieldsPostingsList (segment.FieldsPostingsList (reader s)).

Definition ContainsField (s : t) (field : bytes) : M (result bool) :=
  underlying s (CallContainsField field) (segment.ContainsField (reader s) field).

Definition Terms (s : t) (field : bytes)
  : M (result (list (bytes * postings.List))) :=
  underlying s (CallTerms field) (segment.Terms (reader s) field).

Definition Close (s : t) : M (option error) :=
  underlying s CallClose (segment.Close (reader s)).

Definition Search (s : t) (query : search.Query) (searcher : Searcher)
  : M (result postings.List) :=
  let cache := SearchPostingsListCache (caches s) in
  if isNil cache || negb (CacheSearches (opts s)) then
    searcher s
  else
    let queryStr := search.Query_String query in
    hit ← cache_GetSearch cache (uuid s) queryStr;
    match hit with
    | Some pl => mret (Ok pl)
    | None =>
        res ← searcher s;
        match res with
        | Err e => mret (Err e)
        | Ok pl =>
            cache_PutSearch cache (uuid s) queryStr query pl ;;
            mret (Ok pl)
        end
    end.

End readThroughSegmentReader.

Definition newReadThroughSegmentReader (reader : segment.Reader) (uuid : UUID)
    (caches : ReadThroughSegmentCaches) (opts : ReadThroughSegmentOptions)
  : readThroughSegmentReader.t :=
  readThroughSegmentReader.mk reader opts uuid caches.

(** ** [ReadThroughSegment] *)
Module ReadThroughSegment.

Record t := mk {
  segment : segment.ImmutableSegment;
  uuid : UUID;
  caches : ReadThroughSegmentCaches;
  opts : ReadThroughSegmentOptions;
  closed : bool
}.

(** [CachedSearchPatternsResult] *)
Record CachedSearchPatternsResult := mkCachedSearchPatternsResult {
  CacheSearchesDisabled : bool;
  CachedPatternsResult : PostingsListCache.CachedPatternsResult
}.

(** A call [r.segment.m(...)] whose answer is [x]. *)
Definition underlying {A} (r : t) (call : SegmentCall) (x : A) : M A :=
  emit (EvSegment (uuid r) call) ;; mret x.

Definition setClosed (r : t) : t :=
  mk (segment r) (uuid r) (caches r) (opts r) true.

Definition Reader (r : t) : M (result readThroughSegmentReader.t) :=
  if closed r then mret (Err errCantGetReaderFromClosedSegment)
  else
    res ← underlying r CallSegReader (segment.seg_Reader (segment r));
    match res with
    | Err e => mret (Err e)
    | Ok reader =>
        mret (Ok (newReadThroughSegmentReader reader (uuid r) (caches r) (opts r)))
    end.

(** Returns the struct after the call together with the error. *)
Definition Close (r : t) : M (t * option error) :=
  if closed r then mret (r, Some errCantCloseClosedSegment)
  else
    let r := setClosed r in
    emit (EvSetClosed (uuid r)) ;;
    (let cache := SegmentPostingsListCache (caches r) in
     if negb (isNil cache)
     then cache_PurgeSegment cache (uuid r) ;; mret tt
     else mret tt) ;;
    (let cache := SearchPostingsListCache (caches r) in
     if negb (isNil cache)
     then cache_PurgeSegment cache (uuid r) ;; mret tt
     else mret tt) ;;
    e ← underlying r CallSegClose (segment.seg_Close (segment r));
    mret (r, e).

Definition FieldsIterable (r : t) : M (list bytes) :=
  underlying r CallSegFieldsIterable (segment.seg_FieldsIterable (segment r)).

Definition TermsIterable (r : t) : M (bytes -> list bytes) :=
  underlying r CallSegTermsIterable (segment.seg_TermsIterable (segment r)).

Definition ContainsID (r : t) (id : bytes) : M (result bool) :=
  underlying r (CallSegContainsID id) (segment.seg_ContainsID (segment r) id).

Definition ContainsField (r : t) (field : bytes) : M (result bool) :=
  underlying r (CallSegContainsField field)
    (segment.seg_ContainsField (segment r) field).

Definition FreeMmap (r : t) : M (option error) :=
  underlying r CallSegFreeMmap (segment.seg_FreeMmap (segment r)).

Definition Size (r : t) : M Z :=
  underlying r CallSegSize (segment.seg_Size (segment r)).

Definition PutCachedSearchPattern (r : t) (queryStr : string)
    (query : search.Query) (pl : postings.List) : M unit :=
  if closed r then mret tt
  else
    let cache := SearchPostingsListCache (caches r) in
    if isNil cache || negb (CacheSearches (opts r)) then mret tt
    else cache_PutSearch cache (uuid r) queryStr query pl.

Definition CachedSearchPatterns (r : t) (fn : CachedPatternForEachFn)
  : M CachedSearchPatternsResult :=
  let cache := SearchPostingsListCache (caches r) in
  if isNil cache || negb (CacheSearches (opts r)) then
    mret (mkCachedSearchPatternsResult true [])
  else
    let patternType := PatternTypeSearch in
    result ← cache_CachedPatterns cache (uuid r)
               (PostingsListCache.mkCachedPatternsQuery (Some patternType)) fn;
    mret (mkCachedSearchPatternsResult false result).

End ReadThroughSegment.

(** [NewReadThroughSegment]; [fresh] is the value of [uuid.NewUUID()]. *)
Definition NewReadThroughSegment (seg : segment.ImmutableSegment)
    (caches : ReadThroughSegmentCaches) (opts : ReadThroughSegmentOptions)
    (fresh : UUID) : ReadThroughSegment.t :=
  ReadThroughSegment.mk seg fresh caches opts false.

(** ** Predicates used in the statements *)

(** The cache keys of the four caching methods. *)
Definition regexpKey (u : UUID) (field : bytes) (c : index.CompiledRegex)
  : PostingsListCache.Key :=
  mkKey u PatternTypeRegexp (string_of_bytes field) (index.FSTSyntax_String c).

Definition termKey (u : UUID) (field term : bytes) : PostingsListCache.Key :=
  mkKey u PatternTypeTerm (string_of_bytes field) (string_of_bytes term).

Definition fieldKey (u : UUID) (field : bytes) : PostingsListCache.Key :=
  mkKey u PatternTypeField (string_of_bytes field) EmptyString.

Definition searchKey (u : UUID) (queryStr : string) : PostingsListCache.Key :=
  mkKey u PatternTypeSearch EmptyString queryStr.

(** A handle is nil or points to a cache of the store. *)
Definition validHandle (h : handle) (w : World) : Prop :=
  match h with
  | None => True
  | Some a => is_Some (store w !! a)
  end.

Definition validCaches (cs : ReadThroughSegmentCaches) (w : World) : Prop :=
  validHandle (SegmentPostingsListCache cs) w /\
  validHandle (SearchPostingsListCache cs) w.

(** The guard of the caching methods: the handle is non-nil and the
    option is set. *)
Definition caching (h : handle) (flag : bool) : bool :=
  negb (isNil h || negb flag).

(** Whatever the cache behind [h] holds under [k] is [expected]. *)
Definition agrees (h : handle) (k : PostingsListCache.Key)
    (expected : result postings.List) (w : World) : Prop :=
  forall a c pl,
    h = Some a -> store w !! a = Some c ->
    PostingsListCache.peek k c = Some pl -> expected = Ok pl.

(** The cache behind [h] holds nothing under [k]. *)
Definition misses (h : handle) (k : PostingsListCache.Key) (w : World) : Prop :=
  forall a c,
    h = Some a -> store w !! a = Some c -> PostingsListCache.peek k c = None.

(** No entry of segment [u] is stored in the cache behind [h]. *)
Definition purgedOf (h : handle) (u : UUID) (w : World) : Prop :=
  forall a c,
    h = Some a -> store w !! a = Some c ->
    PostingsListCache.holds u c = false /\
    forall k, PostingsListCache.segmentUUID k = u ->
      PostingsListCache.peek k c = None.

(** The world after a miss under [k] that the underlying call [ev]
    answered with [res]: a successful answer is put, a failure is not. *)
Definition filled (a : addr) (k : PostingsListCache.Key) (c : PostingsListCache.t)
    (ev : Event) (res : result postings.List) (w : World) : World :=
  match res with
  | Ok pl =>
      mkWorld (<[a := PostingsListCache.put k pl c]> (store w))
        (trace w ++ [EvCacheGet a k; ev; EvCachePut a k pl])
  | Err _ => mkWorld (store w) (trace w ++ [EvCacheGet a k; ev])
  end.

(** The world after a hit under [k]: only recency changes. *)
Definition promoted (a : addr) (k : PostingsListCache.Key) (c : PostingsListCache.t)
    (w : World) : World :=
  mkWorld (<[a := snd (PostingsListCache.get k c)]> (store w))
    (trace w ++ [EvCacheGet a k]).

(** The world after a call [ev] that went straight to the underlying
    reader or segment. *)
Definition delegated (ev : Event) (w : World) : World :=
  mkWorld (store w) (trace w ++ [ev]).

(** The cache lookup that precedes a call on the underlying reader:
    none when the guard sends the call straight through. *)
Definition getEvents (h : handle) (flag : bool) (k : PostingsListCache.Key)
  : list Event :=
  match h with
  | Some a => if flag then [EvCacheGet a k] else []
  | None => []
  end.

(** Between [w] and [w'] no cache of the store gained an entry: a key
    that missed still misses. *)
Definition noEntryStored (w w' : World) : Prop :=
  forall a c c' k,
    store w !! a = Some c -> store w' !! a = Some c' ->
    PostingsListCache.peek k c = None -> PostingsListCache.peek k c' = None.

(** Every cache of the store is well formed. *)
Definition wfStore (m : gmap nat PostingsListCache.t) : Prop :=
  map_Forall (fun _ c => PostingsListCache.wf c) m.

#[global] Instance wfStore_dec (m : gmap nat PostingsListCache.t) : Decision (wfStore m).
Proof. apply map_Forall_dec. intros _ c. apply PostingsListCache.wf_dec. Defined.

Definition wfWorld (w : World) : Prop := wfStore (store w).

#[global] Instance wfWorld_dec (w : World) : Decision (wfWorld w).
Proof. apply wfStore_dec. Defined.

(** The events of a purge through [h]. *)
Definition purgeEvents (h : handle) (u : UUID) : list Event :=
  match h with
  | None => []
  | Some a => [EvCachePurge a u]
  end.

(** The store after a purge through [h]. *)
Definition purgeStore (h : handle) (u : UUID)
    (m : gmap nat PostingsListCache.t) : gmap nat PostingsListCache.t :=
  match h with
  | None => m
  | Some a =>
      match m !! a with
      | Some c => <[a := snd (PostingsListCache.PurgeSegment u c)]> m
      | None => m
      end
  end.

(** The world in which [Close] of an open segment calls the underlying
    segment: the flag is set and both caches have been asked to purge. *)
Definition purgedWorld (r : ReadThroughSegment.t) (w : World) : World :=
  let u := ReadThroughSegment.uuid r in
  let h1 := SegmentPostingsListCache (ReadThroughSegment.caches r) in
  let h2 := SearchPostingsListCache (ReadThroughSegment.caches r) in
  mkWorld (purgeStore h2 u (purgeStore h1 u (store w)))
    (trace w ++ EvSetClosed u :: purgeEvents h1 u ++ purgeEvents h2 u).

(** The methods of [ReadThroughSegment], and the struct each leaves. *)
Inductive SegmentOp :=
| OpReader
| OpClose
| OpFieldsIterable
| OpTermsIterable
| OpContainsID (id : bytes)
| OpContainsField (f : bytes)
| OpFreeMmap
| OpSize
| OpPutCachedSearchPattern (queryStr : string) (query : search.Query)
    (pl : postings.List)
| OpCachedSearchPatterns (fn : CachedPatternForEachFn).

Definition step (op : SegmentOp) (r : ReadThroughSegment.t) : M ReadThroughSegment.t :=
  match op with
  | OpReader => ReadThroughSegment.Reader r ;; mret r
  | OpClose => res ← ReadThroughSegment.Close r; mret (fst res)
  | OpFieldsIterable => ReadThroughSegment.FieldsIterable r ;; mret r
  | OpTermsIterable => ReadThroughSegment.TermsIterable r ;; mret r
  | OpContainsID id => ReadThroughSegment.ContainsID r id ;; mret r
  | OpContainsField f => ReadThroughSegment.ContainsField r f ;; mret r
  | OpFreeMmap => ReadThroughSegment.FreeMmap r ;; mret r
  | OpSize => ReadThroughSegment.Size r ;; mret r
  | OpPutCachedSearchPattern q query pl =>
      ReadThroughSegment.PutCachedSearchPattern r q query pl ;; mret r
  | OpCachedSearchPatterns fn =>
      ReadThroughSegment.CachedSearchPatterns r fn ;; mret r
  end.

Fixpoint steps (ops : list SegmentOp) (r : ReadThroughSegment.t) : M ReadThroughSegment.t :=
  match ops with
  | [] => mret r
  | op :: ops' => r' ← step op r; steps ops' r'
  end.

(** ** A small segment, for the concrete scenarios *)
Module Example.

Definition b (s : string) : bytes := list_byte_of_string s.

Definition docs : list (N * doc.Metadata) :=
  [(1%N, doc.mkMetadata (b "doc1")
           [doc.mkField (b "color") (b "red"); doc.mkField (b "shape") (b "square")]);
   (2%N, doc.mkMetadata (b "doc2")
           [doc.mkField (b "color") (b "red"); doc.mkField (b "shape") (b "circle")])].

Definition bytes_eqb (x y : bytes) : bool :=
  String.eqb (string_of_bytes x) (string_of_bytes y).

Definition matching (p : doc.Field -> bool) : postings.List :=
  let hits := List.filter (fun d => existsb p (doc.Fields (snd d))) docs in
  postings.mkList (map fst hits) (8 * length hits).

Definition hasTerm (f t : bytes) (x : doc.Field) : bool :=
  bytes_eqb (doc.Name x) f && bytes_eqb (doc.Value x) t.

Definition hasField (f : bytes) (x : doc.Field) : bool :=
  bytes_eqb (doc.Name x) f.

Definition hasPrefix (f : bytes) (c : index.CompiledRegex) (x : doc.Field) : bool :=
  bytes_eqb (doc.Name x) f &&
  String.prefix (string_of_bytes (index.PrefixBegin c)) (string_of_bytes (doc.Value x)).

Definition unsupported {A} : result A := Err (errExternal "unsupported").

(** A reader over [docs]; regular expressions are answered by their
    literal prefix, the listing methods are not provided. *)
Definition reader : segment.Reader :=
  segment.mkReader
    (fun f c => Ok (matching (hasPrefix f c)))
    (fun f t => Ok (matching (hasTerm f t)))
    (fun f => Ok (matching (hasField f)))
    (Ok (postings.mkList [1%N; 2%N] 16))
    (Ok docs)
    (fun id => match List.find (fun d => N.eqb (fst d) id) docs with
               | Some d => Ok (snd d)
               | None => Err (errExternal "not found")
               end)
    (fun pl => Ok (map snd (List.filter
                     (fun d => existsb (N.eqb (fst d)) (postings.ids pl)) docs)))
    (fun _ => unsupported)
    (fun _ => unsupported)
    (Ok [b "color"; b "shape"])
    unsupported
    (fun f => Ok (existsb (fun d => existsb (hasField f) (doc.Fields (snd d))) docs))
    (fun _ => unsupported)
    None.

(** A reader whose queries all fail. *)
Definition failing : segment.Reader :=
  segment.mkReader
    (fun _ _ => unsupported) (fun _ _ => unsupported) (fun _ => unsupported)
    unsupported unsupported (fun _ => unsupported) (fun _ => unsupported)
    (fun _ => unsupported) (fun _ => unsupported) unsupported unsupported
    (fun _ => unsupported) (fun _ => unsupported) None.

Definition seg : segment.ImmutableSegment :=
  segment.mkImmutableSegment (Ok reader) None [b "color"; b "shape"]
    (fun _ => []) (fun _ => Ok false)
    (fun f => Ok (existsb (fun d => existsb (hasField f) (doc.Fields (snd d))) docs))
    None 2%Z.

(** The same segment, but closing it fails. *)
Definition segCloseFails : segment.ImmutableSegment :=
  segment.mkImmutableSegment (Ok reader) (Some (errExternal "munmap")) []
    (fun _ => []) (fun _ => Ok false) (fun _ => Ok false) None 2%Z.

Definition cache0 : PostingsListCache.t :=
  PostingsListCache.NewPostingsListCache true true true (Some 1024) (Some 3).

(** Two caches: address 0 for term, regexp and field results, address
    1 for searches. *)
Definition world : World :=
  mkWorld (<[0 := cache0]> (<[1 := cache0]> ∅)) [].

Definition cachesBoth : ReadThroughSegmentCaches := mkCaches (Some 0) (Some 1).
Definition cachesNil : ReadThroughSegmentCaches := mkCaches None None.
Definition optsAll : ReadThroughSegmentOptions := mkOptions true true true.
Definition optsNone : ReadThroughSegmentOptions := mkOptions false false false.

Definition rts : ReadThroughSegment.t :=
  NewReadThroughSegment seg cachesBoth optsAll 7%N.

Definition rd : readThroughSegmentReader.t :=
  newReadThroughSegmentReader reader 7%N cachesBoth optsAll.

Definition squa : index.CompiledRegex :=
  index.mkCompiledRegex "squa.*" "(?s:squa.*)" (b "squa") (b "squb").

(** The same expression written with anchors. *)
Definition squaAnchored : index.CompiledRegex :=
  index.mkCompiledRegex "^squa.*$" "(?s:squa.*)" (b "squa") (b "squb").

Definition query : search.Query := search.mkQuery "term(color, red)".

(** A searcher that answers with a term query on the reader. *)
Definition searcher : readThroughSegmentReader.Searcher :=
  fun s => readThroughSegmentReader.MatchTerm s (b "color") (b "red").

Definition failingSearcher : readThroughSegmentReader.Searcher :=
  fun s =>
    readThroughSegmentReader.MatchTerm s (b "color") (b "red") ;;
    mret (Err (errExternal "deadline")).

(** The world a computation leaves. *)
Definition after {A} (m : M A) (w : World) : World :=
  match m w with
  | Done _ w' => w'
  | Panic => w
  end.

(** The caches after a term, a regexp, a field and a search query. *)
Definition warm : World :=
  after
    (readThroughSegmentReader.MatchTerm rd (b "color") (b "red") ;;
     readThroughSegmentReader.MatchRegexp rd (b "shape") squa ;;
     readThroughSegmentReader.MatchField rd (b "shape") ;;
     readThroughSegmentReader.Search rd query searcher)
    world.

(** Readers and segments with caching switched off or without caches. *)
Definition rdOff : readThroughSegmentReader.t :=
  newReadThroughSegmentReader reader 7%N cachesBoth optsNone.

Definition rdNil : readThroughSegmentReader.t :=
  newReadThroughSegmentReader reader 7%N cachesNil optsAll.

Definition rdFailing : readThroughSegmentReader.t :=
  newReadThroughSegmentReader failing 7%N cachesBoth optsAll.

Definition rtsNil : ReadThroughSegment.t :=
  NewReadThroughSegment seg cachesNil optsAll 7%N.

(** A segment with a search cache only. *)
Definition rtsSearchOnly : ReadThroughSegment.t :=
  NewReadThroughSegment seg (mkCaches None (Some 1)) optsAll 7%N.

Definition rtsCloseFails : ReadThroughSegment.t :=
  NewReadThroughSegment segCloseFails cachesBoth optsAll 7%N.

Definition redPostings : postings.List := postings.mkList [1%N; 2%N] 16.

(** The world after a search whose searcher looked up a term and then
    failed. *)
Definition afterFailedSearch : World :=
  after (readThroughSegmentReader.Search rd query failingSearcher) world.

Definition squarePostings : postings.List := postings.mkList [1%N] 8.

(** The two caches of [warm]. *)
Definition warmSegmentCache : PostingsListCache.t :=
  default cache0 (store warm !! 0).

Definition warmSearchCache : PostingsListCache.t :=
  default cache0 (store warm !! 1).

End Example.

(** ** The three caching match methods, taken together *)

(** A call of [MatchRegexp], [MatchTerm] or [MatchField] with its
    arguments. *)
Inductive MatchQuery :=
| QueryRegexp (field : bytes) (c : index.CompiledRegex)
| QueryTerm (field term : bytes)
| QueryField (field : bytes).

(** The method of the read-through reader that answers [q]. *)
Definition runMatch (s : readThroughSegmentReader.t) (q : MatchQuery)
  : M (result postings.List) :=
  match q with
  | QueryRegexp f c => readThroughSegmentReader.MatchRegexp s f c
  | QueryTerm f t => readThroughSegmentReader.MatchTerm s f t
  | QueryField f => readThroughSegmentReader.MatchField s f
  end.

(** The same call on the underlying reader, and its name in the trace. *)
Definition underlyingMatch (rd : segment.Reader) (q : MatchQuery)
  : result postings.List :=
  match q with
  | QueryRegexp f c => segment.MatchRegexp rd f c
  | QueryTerm f t => segment.MatchTerm rd f t
  | QueryField f => segment.MatchField rd f
  end.

Definition matchCall (q : MatchQuery) : ReaderCall :=
  match q with
  | QueryRegexp f c => CallMatchRegexp f c
  | QueryTerm f t => CallMatchTerm f t
  | QueryField f => CallMatchField f
  end.

(** The option that guards the method, and the key it looks up. *)
Definition matchFlag (o : ReadThroughSegmentOptions) (q : MatchQuery) : bool :=
  match q with
  | QueryRegexp _ _ => CacheRegexp o
  | QueryTerm _ _ => CacheTerms o
  | QueryField _ => CacheTerms o
  end.

Definition matchKey (u : UUID) (q : MatchQuery) : PostingsListCache.Key :=
  match q with
  | QueryRegexp f c => regexpKey u f c
  | QueryTerm f t => termKey u f t
  | QueryField f => fieldKey u f
  end.

(** The cache behind [h] answers the lookup of [k]: the guard lets the
    call through to the cache and the cache returns an entry. *)
Definition hits (h : handle) (flag : bool) (k : PostingsListCache.Key)
    (w : World) : bool :=
  caching h flag &&
  match h with
  | Some a =>
      match store w !! a with
      | Some c => bool_decide (is_Some (fst (PostingsListCache.get k c)))
      | None => false
      end
  | None => false
  end.

(** ** Counting calls in a trace *)

(** The cache and the segment id that an event on a cache names. *)
Definition cacheEventAt (e : Event) : option (addr * UUID) :=
  match e with
  | EvCacheGet a k => Some (a, PostingsListCache.segmentUUID k)
  | EvCachePut a k _ => Some (a, PostingsListCache.segmentUUID k)
  | EvCachePurge a u => Some (a, u)
  | EvCachePatterns a u => Some (a, u)
  | EvSetClosed _ | EvSegment _ _ | EvReader _ _ => None
  end.

Definition isReaderCall (u : UUID) (e : Event) : bool :=
  match e with
  | EvReader u' _ => bool_decide (u' = u)
  | _ => false
  end.

Definition isSegmentClose (u : UUID) (e : Event) : bool :=
  match e with
  | EvSegment u' CallSegClose => bool_decide (u' = u)
  | _ => false
  end.

(** Calls on the underlying reader of wrapper [u] recorded in [tr]. *)
Definition readerCalls (u : UUID) (tr : list Event) : nat :=
  length (List.filter (isReaderCall u) tr).

(** Calls of [Close] on the underlying segment of wrapper [u]. *)
Definition closeCalls (u : UUID) (tr : list Event) : nat :=
  length (List.filter (isSegmentClose u) tr).

(** A method whose visitor, if it has one, does not close the underlying
    segment of wrapper [u] behind the wrapper's back. *)
Definition visitorKeepsOpen (u : UUID) (op : SegmentOp) : Prop :=
  match op with
  | OpCachedSearchPatterns fn =>
      forall p w x w', fn p w = Done x w' ->
        closeCalls u (trace w') = closeCalls u (trace w)
  | _ => True
  end.

(** ** Sequences of reader methods *)

(** The methods of the read-through reader other than [Search]. *)
Inductive ReaderOp :=
| RdMatch (q : MatchQuery)
| RdMatchAll
| RdAllDocs
| RdMetadata (id : N)
| RdMetadataIterator (pl : postings.List)
| RdDoc (id : N)
| RdDocs (pl : postings.List)
| RdFields
| RdFieldsPostingsList
| RdContainsField (f : bytes)
| RdTerms (f : bytes)
| RdClose.

Definition readerStep (op : ReaderOp) (s : readThroughSegmentReader.t) : M unit :=
  match op with
  | RdMatch q => runMatch s q ;; mret tt
  | RdMatchAll => readThroughSegmentReader.MatchAll s ;; mret tt
  | RdAllDocs => readThroughSegmentReader.AllDocs s ;; mret tt
  | RdMetadata id => readThroughSegmentReader.Metadata s id ;; mret tt
  | RdMetadataIterator pl => readThroughSegmentReader.MetadataIterator s pl ;; mret tt
  | RdDoc id => readThroughSegmentReader.Doc s id ;; mret tt
  | RdDocs pl => readThroughSegmentReader.Docs s pl ;; mret tt
  | RdFields => readThroughSegmentReader.Fields s ;; mret tt
  | RdFieldsPostingsList => readThroughSegmentReader.FieldsPostingsList s ;; mret tt
  | RdContainsField f => readThroughSegmentReader.ContainsField s f ;; mret tt
  | RdTerms f => readThroughSegmentReader.Terms s f ;; mret tt
  | RdClose => readThroughSegmentReader.Close s ;; mret tt
  end.

Fixpoint readerSteps (ops : list ReaderOp) (s : readThroughSegmentReader.t) : M unit :=
  match ops with
  | [] => mret tt
  | op :: ops' => readerStep op s ;; readerSteps ops' s
  end.

(** An event that only the segment wrapper issues: the flag, a purge, or
    a call on the underlying segment. *)
Definition isSegmentEvent (e : Event) : bool :=
  match e with
  | EvSetClosed _ | EvCachePurge _ _ | EvSegment _ _ => true
  | _ => false
  end.

(** ** Sequences and worlds for the concrete scenarios *)
Module Scenario.

(** A segment with nothing in it, whose reader cannot be opened. *)
Definition emptySeg : segment.ImmutableSegment :=
  segment.mkImmutableSegment (Err (errExternal "empty")) None []
    (fun _ => []) (fun _ => Ok false) (fun _ => Ok false) None 0%Z.

Definition emptyRts : ReadThroughSegment.t :=
  NewReadThroughSegment emptySeg Example.cachesBoth Example.optsAll 7%N.

(** A life of a segment: read, close, ask, close again. *)
Definition ops : list SegmentOp :=
  [OpReader; OpSize; OpClose; OpContainsID (Example.b "doc1");
   OpPutCachedSearchPattern "q" Example.query Example.redPostings;
   OpCachedSearchPatterns (fun _ => mret tt); OpReader; OpClose; OpFreeMmap].

Definition afterOps : World := Example.after (steps ops emptyRts) Example.world.

Definition afterCloses : World :=
  Example.after (steps [OpClose; OpClose; OpReader] emptyRts) Example.world.

(** Queries on a reader, some of them repeated, and a close of the
    reader. *)
Definition readerOps : list ReaderOp :=
  [RdMatch (QueryTerm (Example.b "color") (Example.b "red"));
   RdMatchAll;
   RdMatch (QueryField (Example.b "shape"));
   RdDoc 1%N;
   RdMatch (QueryTerm (Example.b "color") (Example.b "red"));
   RdMatch (QueryRegexp (Example.b "shape") Example.squa);
   RdClose].

(** The world in which the example searcher is run by a first search,
    and the world it leaves. *)
Definition searcherStart : World :=
  delegated (EvCacheGet 1 (searchKey 7%N (search.Query_String Example.query)))
    Example.world.

Definition searcherEnd : World :=
  Example.after (Example.searcher Example.rd) searcherStart.

(** A listing of the cached search patterns of the example segment. *)
Definition listing : outcome ReadThroughSegment.CachedSearchPatternsResult :=
  ReadThroughSegment.CachedSearchPatterns Example.rts (fun _ => mret tt) Example.warm.

Definition listingResult : ReadThroughSegment.CachedSearchPatternsResult :=
  match listing with
  | Done res _ => res
  | Panic => ReadThroughSegment.mkCachedSearchPatternsResult true []
  end.

Definition listingWorld : World :=
  match listing with
  | Done _ w' => w'
  | Panic => Example.warm
  end.

End Scenario.

(** * Facts about the cache *)
Section CacheFacts.
Import PostingsListCache.
Implicit Types (c : t) (l : LRU) (k : Key) (pt : PatternType) (es : list Entry).

Lemma lruOf_setLru_eq pt l c : lruOf pt (setLru pt l c) = l.
Proof. by destruct pt. Qed.

Lemma lruOf_setLru_ne pt pt' l c : pt <> pt' -> lruOf pt' (setLru pt l c) = lruOf pt' c.
Proof. by destruct pt, pt'. Qed.

Lemma setLru_id pt c : setLru pt (lruOf pt c) c = c.
Proof. by destruct pt, c. Qed.

Lemma enabled_setLru pt pt' l c : enabled pt' (setLru pt l c) = enabled pt' c.
Proof. by destruct pt, pt'. Qed.

Lemma backIndex_setLru pt l c : backIndex (setLru pt l c) = backIndex c.
Proof. by destruct pt. Qed.

Lemma purged_setLru pt l c : purged (setLru pt l c) = purged c.
Proof. by destruct pt. Qed.

Lemma lruOf_setBackIndex pt b c : lruOf pt (setBackIndex b c) = lruOf pt c.
Proof. by destruct pt. Qed.

Lemma enabled_setBackIndex pt b c : enabled pt (setBackIndex b c) = enabled pt c.
Proof. by destruct pt. Qed.

Lemma lruLookup_Some k es e :
  lruLookup k es = Some e -> entryKey e = k /\ e ∈ es.
Proof.
  unfold lruLookup. intros H. apply find_some in H as [Hin Hk].
  split; [by apply bool_decide_eq_true in Hk | by apply list_elem_of_In].
Qed.

Lemma lruLookup_None k es e : lruLookup k es = None -> e ∈ es -> entryKey e <> k.
Proof.
  unfold lruLookup. intros H Hin%list_elem_of_In Hk.
  pose proof (find_none _ _ H e Hin) as Hf. simpl in Hf.
  by apply bool_decide_eq_false in Hf.
Qed.

Lemma lruLookup_drop_eq k es : lruLookup k (lruDrop k es) = None.
Proof.
  unfold lruDrop. induction es as [|e es IH]; [done|].
  rewrite filter_cons. case_decide as Hk; [|done].
  simpl. by rewrite bool_decide_eq_false_2.
Qed.

Lemma lruLookup_drop_ne k k' es :
  k' <> k -> lruLookup k' (lruDrop k es) = lruLookup k' es.
Proof.
  intros Hne. unfold lruDrop. induction es as [|e es IH]; [done|].
  rewrite filter_cons. case_decide as Hk; simpl.
  - by rewrite IH.
  - rewrite bool_decide_eq_false_2; [done|congruence].
Qed.

Lemma elem_of_lruDrop k es e : e ∈ lruDrop k es <-> entryKey e <> k /\ e ∈ es.
Proof. unfold lruDrop. by rewrite list_elem_of_filter. Qed.

Lemma NoDup_lruDrop k es :
  NoDup (entryKey <$> es) -> NoDup (entryKey <$> lruDrop k es).
Proof.
  intros H. eapply sublist_NoDup; [done|].
  apply fmap_sublist, sublist_filter.
Qed.

Lemma key_not_in_lruDrop k es : k ∉ entryKey <$> lruDrop k es.
Proof.
  intros (e & -> & He)%list_elem_of_fmap.
  by apply elem_of_lruDrop in He as [Hne _].
Qed.

Lemma lruLookup_app_Some k es es' e :
  lruLookup k es = Some e -> lruLookup k (es ++ es') = Some e.
Proof.
  induction es as [|x es IH]; [done|]. simpl.
  case_bool_decide; [done|]. apply IH.
Qed.

(** Eviction keeps a prefix and reports the keys of the rest. *)
Lemma evict_split fuel l es kept gone :
  evict fuel l es = (kept, gone) ->
  exists dropped, es = kept ++ dropped /\ gone = rev (entryKey <$> dropped).
Proof.
  revert es kept gone. induction fuel as [|fuel IH]; intros es kept gone; simpl.
  - intros [= <- <-]. exists []. by rewrite app_nil_r.
  - destruct (over l es).
    + destruct (last es) as [e|] eqn:Hlast.
      * apply last_Some in Hlast as [es' ->].
        rewrite removelast_last.
        destruct (evict fuel l es') as [kept' gone'] eqn:Hev.
        intros [= <- <-].
        destruct (IH _ _ _ Hev) as (dropped & -> & ->).
        exists (dropped ++ [e]). split; [by rewrite app_assoc|].
        by rewrite fmap_app, rev_app_distr.
      * intros [= <- <-]. exists []. by rewrite app_nil_r.
    + intros [= <- <-]. exists []. by rewrite app_nil_r.
Qed.

(** The most recent entry stays when it fits the bounds on its own. *)
Lemma evict_keeps_head fuel l e es kept gone :
  over l [e] = false -> length es <= fuel ->
  evict fuel l (e :: es) = (kept, gone) ->
  exists rest, kept = e :: rest.
Proof.
  intros Hfit. revert es kept gone.
  induction fuel as [|fuel IH]; intros es kept gone Hlen; cbn [evict].
  - intros [= <- <-]. eauto.
  - destruct (over l (e :: es)) eqn:Hover; [|intros [= <- <-]; eauto].
    destruct es as [|x es _] using rev_ind; [congruence|].
    change (e :: es ++ [x]) with ((e :: es) ++ [x]).
    rewrite last_snoc, removelast_last.
    destruct (evict fuel l (e :: es)) as [kept' gone'] eqn:Hev.
    intros [= <- <-]. eapply IH; [|done].
    rewrite length_app in Hlen. simpl in Hlen. lia.
Qed.

Lemma get_fst k c : fst (get k c) = peek k c.
Proof.
  unfold get, peek, lruGet. destruct (enabled (patternType k) c); [|done].
  by destruct (lruLookup k (entries (lruOf (patternType k) c))).
Qed.

Lemma get_miss k c : peek k c = None -> get k c = (None, c).
Proof.
  unfold get, peek, lruGet. destruct (enabled (patternType k) c); [|done].
  destruct (lruLookup k (entries (lruOf (patternType k) c))); [done|].
  intros _. by rewrite setLru_id.
Qed.

(** A [get] changes recency only. *)
Lemma peek_get k k' c : peek k' (snd (get k c)) = peek k' c.
Proof.
  unfold get, lruGet. destruct (enabled (patternType k) c) eqn:Hen; [|done].
  destruct (lruLookup k (entries (lruOf (patternType k) c))) as [e|] eqn:Hl;
    simpl; [|by rewrite setLru_id].
  unfold peek. rewrite enabled_setLru.
  destruct (enabled (patternType k') c); [|done].
  destruct (decide (patternType k = patternType k')) as [Hpt|Hpt].
  - rewrite <- Hpt, lruOf_setLru_eq. simpl.
    destruct (lruLookup_Some _ _ _ Hl) as [Hk _].
    destruct (decide (k' = k)) as [->|Hne].
    + by rewrite bool_decide_eq_true_2, Hl.
    + rewrite bool_decide_eq_false_2 by congruence.
      fold (lruLookup k' (lruDrop k (entries (lruOf (patternType k) c)))).
      by rewrite lruLookup_drop_ne.
  - by rewrite lruOf_setLru_ne.
Qed.

Lemma enabled_get k pt c : enabled pt (snd (get k c)) = enabled pt c.
Proof.
  unfold get. destruct (enabled (patternType k) c); [|done].
  destruct (lruGet _ _). apply enabled_setLru.
Qed.

(** What is found after a [put] was put just now or was there before. *)
Lemma peek_put k pl k' pl' c :
  peek k' (put k pl c) = Some pl' ->
  (k' = k /\ pl' = pl) \/ peek k' c = Some pl'.
Proof.
  unfold put. destruct (enabled (patternType k) c) eqn:Hen; [|by right].
  case_bool_decide; [by right|].
  unfold lruPut.
  destruct (evict _ _ _) as [kept gone] eqn:Hev.
  apply evict_split in Hev as (dropped & Hes & _).
  unfold peek. rewrite enabled_setBackIndex, enabled_setLru, lruOf_setBackIndex.
  destruct (enabled (patternType k') c); [|done].
  destruct (decide (patternType k = patternType k')) as [Hpt|Hpt].
  - rewrite <- Hpt, lruOf_setLru_eq. simpl.
    destruct (lruLookup k' kept) as [e|] eqn:Hl; [|done].
    intros [= <-].
    apply (lruLookup_app_Some _ _ dropped) in Hl. rewrite <- Hes in Hl.
    simpl in Hl. case_bool_decide as Hk.
    + left. simpl in Hk. by simplify_eq.
    + right. simpl in Hk.
      fold (lruLookup k' (lruDrop k (entries (lruOf (patternType k) c)))) in Hl.
      rewrite lruLookup_drop_ne in Hl by congruence. by rewrite Hl.
  - rewrite lruOf_setLru_ne by done. by right.
Qed.

(** A [put] is found again when the cache accepts it: its kind is
    enabled, its segment is not purged, and the entry fits the bounds
    of its LRU on its own. *)
Lemma peek_put_same k pl c :
  enabled (patternType k) c = true ->
  segmentUUID k ∉ purged c ->
  over (lruOf (patternType k) c) [mkEntry k pl (postings.memory_bytes pl)] = false ->
  peek k (put k pl c) = Some pl.
Proof.
  intros Hen Hp Hfit. unfold put. rewrite Hen, bool_decide_eq_false_2 by done.
  unfold lruPut.
  destruct (evict _ _ _) as [kept gone] eqn:Hev.
  apply evict_keeps_head in Hev as [rest ->]; [|done|simpl; lia].
  unfold peek. rewrite enabled_setBackIndex, enabled_setLru, lruOf_setBackIndex, Hen.
  rewrite lruOf_setLru_eq. simpl. by rewrite bool_decide_eq_true_2.
Qed.

(** *** Well-formedness is kept by every operation *)

Lemma keyOf_subKey k : keyOf (segmentUUID k) (subKey k) = k.
Proof. by destruct k. Qed.

Lemma subKey_inj k k' :
  segmentUUID k = segmentUUID k' -> subKey k = subKey k' -> k = k'.
Proof. destruct k, k'; unfold subKey; simpl. congruence. Qed.

Lemma wf_spec c :
  wf c <->
  forall pt,
    NoDup (entryKey <$> entries (lruOf pt c)) /\
    forall e, e ∈ entries (lruOf pt c) ->
      patternType (entryKey e) = pt /\
      subKey (entryKey e) ∈ default [] (backIndex c !! segmentUUID (entryKey e)).
Proof.
  unfold wf, wfKind, wfEntry. rewrite Forall_forall. split.
  - intros H pt. destruct (H pt) as [Hnd Hall].
    + destruct pt; unfold allKinds; repeat constructor.
    + split; [done|]. by apply Forall_forall.
  - intros H pt _. destruct (H pt) as [Hnd Hall].
    split; [done|]. by apply Forall_forall.
Qed.

Lemma wf_new r ts ss mb me : wf (NewPostingsListCache r ts ss mb me).
Proof.
  apply wf_spec.
  intros pt. destruct pt; simpl; (split; [constructor|]);
    intros e He; by apply elem_of_nil in He.
Qed.

Lemma wf_get k c : wf c -> wf (snd (get k c)).
Proof.
  rewrite !wf_spec.
  intros Hwf. unfold get, lruGet.
  destruct (enabled (patternType k) c); [|done].
  destruct (lruLookup k (entries (lruOf (patternType k) c))) as [e|] eqn:Hl;
    simpl; [|by rewrite setLru_id].
  destruct (lruLookup_Some _ _ _ Hl) as [Hk He].
  intros pt. rewrite backIndex_setLru.
  destruct (decide (patternType k = pt)) as [<-|Hpt].
  - rewrite lruOf_setLru_eq. cbn [entries].
    destruct (Hwf (patternType k)) as [Hnd Hin]. split.
    + rewrite fmap_cons, NoDup_cons, Hk. split.
      * apply key_not_in_lruDrop.
      * by apply NoDup_lruDrop.
    + intros e' [->|[_ He']%elem_of_lruDrop]%elem_of_cons; by apply Hin.
  - rewrite lruOf_setLru_ne by done. apply Hwf.
Qed.

Lemma indexAdd_same k b :
  subKey k ∈ default [] (indexAdd k b !! segmentUUID k).
Proof.
  unfold indexAdd. case_bool_decide as Hin; [done|].
  rewrite lookup_insert_eq. simpl. apply elem_of_cons. by left.
Qed.

Lemma indexAdd_mono k b u sk :
  sk ∈ default [] (b !! u) -> sk ∈ default [] (indexAdd k b !! u).
Proof.
  intros Hin. unfold indexAdd. case_bool_decide; [done|].
  destruct (decide (segmentUUID k = u)) as [<-|Hne].
  - rewrite lookup_insert_eq. simpl. apply elem_of_cons. by right.
  - by rewrite lookup_insert_ne.
Qed.

Lemma indexDrop_other k b u sk :
  keyOf u sk <> k ->
  sk ∈ default [] (b !! u) -> sk ∈ default [] (indexDrop k b !! u).
Proof.
  intros Hne Hin. unfold indexDrop.
  destruct (b !! segmentUUID k) as [old|] eqn:Hold; [|done].
  destruct (decide (segmentUUID k = u)) as [<-|Hu].
  - rewrite lookup_insert_eq. rewrite Hold in Hin. simpl in *.
    apply list_elem_of_filter. split; [|done].
    intros ->. by rewrite keyOf_subKey in Hne.
  - by rewrite lookup_insert_ne.
Qed.

Lemma indexDrop_all ks b u sk :
  (forall k, k ∈ ks -> keyOf u sk <> k) ->
  sk ∈ default [] (b !! u) -> sk ∈ default [] (foldr indexDrop b ks !! u).
Proof.
  induction ks as [|k ks IH]; intros Hks Hin; simpl; [done|].
  apply indexDrop_other; [apply Hks; by left|].
  apply IH; [|done]. intros k' Hk'. apply Hks. by right.
Qed.

Lemma wf_put k pl c : wf c -> wf (put k pl c).
Proof.
  rewrite !wf_spec.
  intros Hwf. unfold put.
  destruct (enabled (patternType k) c); [|done].
  case_bool_decide; [done|].
  unfold lruPut.
  destruct (evict _ _ _) as [kept gone] eqn:Hev.
  apply evict_split in Hev as (dropped & Hes & ->).
  set (old := entries (lruOf (patternType k) c)) in *.
  set (new := mkEntry k pl (postings.memory_bytes pl)) in *.
  destruct (Hwf (patternType k)) as [Hnd Hin]. fold old in Hnd, Hin.
  assert (NoDup (entryKey <$> kept ++ dropped)) as Hnd'.
  { rewrite <- Hes, fmap_cons, NoDup_cons. split.
    - apply key_not_in_lruDrop.
    - by apply NoDup_lruDrop. }
  assert (forall e, e ∈ kept ++ dropped -> patternType (entryKey e) = patternType k)
    as Hkind.
  { intros e. rewrite <- Hes.
    intros [->|[_ He]%elem_of_lruDrop]%elem_of_cons; [done|by apply Hin]. }
  rewrite fmap_app, NoDup_app in Hnd'. destruct Hnd' as (Hk1 & Hk2 & Hk3).
  intros pt. rewrite lruOf_setBackIndex. cbn [setBackIndex backIndex].
  rewrite backIndex_setLru.
  destruct (decide (patternType k = pt)) as [<-|Hpt].
  - rewrite lruOf_setLru_eq. cbn [entries]. split; [done|].
    intros e He. split; [apply Hkind, elem_of_app; by left|].
    apply indexDrop_all.
    + intros k' Hk'%list_elem_of_In%in_rev%list_elem_of_In.
      rewrite keyOf_subKey. intros <-.
      eapply Hk2; [|done]. by apply list_elem_of_fmap_2.
    + assert (e ∈ new :: lruDrop k old) as He'.
      { rewrite Hes. apply elem_of_app. by left. }
      apply elem_of_cons in He' as [->|[_ He']%elem_of_lruDrop].
      * apply indexAdd_same.
      * apply indexAdd_mono. by apply Hin.
  - rewrite lruOf_setLru_ne by done.
    destruct (Hwf pt) as [Hnd2 Hin2]. split; [done|].
    intros e He. destruct (Hin2 e He) as [Hty Hsk]. split; [done|].
    apply indexDrop_all.
    + intros k' Hk'%list_elem_of_In%in_rev%list_elem_of_In.
      rewrite keyOf_subKey. intros <-.
      apply list_elem_of_fmap in Hk' as (e' & Heq & He').
      apply Hpt. rewrite <- Hty, Heq. symmetry. apply Hkind.
      apply elem_of_app. by right.
    + by apply indexAdd_mono.
Qed.

(** *** Purge *)

Lemma purge_fold u taken n c :
  let r := snd (foldr (purgeOne u) (n, c) taken) in
  backIndex r = backIndex c /\ purged r = purged c /\
  (forall pt, enabled pt r = enabled pt c) /\
  forall pt,
    entries (lruOf pt r) `sublist_of` entries (lruOf pt c) /\
    forall e sk, e ∈ entries (lruOf pt r) -> sk ∈ taken -> fst sk = pt ->
      entryKey e <> keyOf u sk.
Proof.
  induction taken as [|sk taken IH]; simpl.
  - repeat split; [done|]. intros e sk _ Hsk. by apply elem_of_nil in Hsk.
  - destruct (foldr (purgeOne u) (n, c) taken) as [n' c'] eqn:Hf.
    simpl in IH. destruct IH as (Hb & Hp & Hen & Hes).
    unfold purgeOne, lruRemove. simpl.
    rewrite backIndex_setLru, purged_setLru.
    split; [done|]. split; [done|].
    split; [intros pt; by rewrite enabled_setLru|].
    intros pt. destruct (Hes pt) as [Hsub Hout].
    destruct (decide (fst sk = pt)) as [<-|Hpt].
    + rewrite lruOf_setLru_eq. cbn [entries]. split.
      * etrans; [apply sublist_filter|done].
      * intros e sk' [Hne He]%elem_of_lruDrop [->|Hsk']%elem_of_cons Hfst;
          [done|by eapply Hout].
    + rewrite lruOf_setLru_ne by done. split; [done|].
      intros e sk' He [->|Hsk']%elem_of_cons Hfst; [done|by eapply Hout].
Qed.

Lemma PurgeSegment_spec u c :
  wf c ->
  let r := snd (PurgeSegment u c) in
  backIndex r = delete u (backIndex c) /\
  (forall pt, enabled pt r = enabled pt c) /\
  u ∈ purged r /\
  forall pt,
    entries (lruOf pt r) `sublist_of` entries (lruOf pt c) /\
    forall e, e ∈ entries (lruOf pt r) -> segmentUUID (entryKey e) <> u.
Proof.
  intros Hwf0. pose proof (proj1 (wf_spec c) Hwf0) as Hwf. unfold PurgeSegment.
  set (c' := mkCache _ _ _ _ _ _ _ _ _).
  destruct (purge_fold u (default [] (backIndex c !! u)) 0 c')
    as (Hb & Hp & Hen & Hes).
  cbv zeta. rewrite Hb, Hp. split; [done|].
  split; [intros pt; rewrite Hen; by destruct pt|].
  split; [apply elem_of_union_l; by apply elem_of_singleton|].
  intros pt. destruct (Hes pt) as [Hsub Hout].
  assert (lruOf pt c' = lruOf pt c) as Hl by (by destruct pt).
  rewrite Hl in Hsub. split; [done|].
  intros e He Hu.
  assert (e ∈ entries (lruOf pt c)) as He' by (by eapply elem_of_sublist).
  destruct (Hwf pt) as [_ Hin]. destruct (Hin e He') as [Hty Hsk].
  rewrite Hu in Hsk.
  apply (Hout e (subKey (entryKey e)) He Hsk); [done|].
  by rewrite <- Hu, keyOf_subKey.
Qed.

Lemma wf_PurgeSegment u c : wf c -> wf (snd (PurgeSegment u c)).
Proof.
  intros Hwf. destruct (PurgeSegment_spec u c Hwf) as (Hb & _ & _ & Hes).
  apply wf_spec. pose proof (proj1 (wf_spec c) Hwf) as Hwf'.
  intros pt. destruct (Hes pt) as [Hsub Hout].
  destruct (Hwf' pt) as [Hnd Hin]. split.
  - eapply sublist_NoDup; [done|]. by apply fmap_sublist.
  - intros e He.
    assert (e ∈ entries (lruOf pt c)) as He' by (by eapply elem_of_sublist).
    destruct (Hin e He') as [Hty Hsk]. split; [done|].
    rewrite Hb, lookup_delete_ne; [done|].
    intros Hu. by eapply Hout.
Qed.

Lemma holds_false u c :
  holds u c = false <->
  forall pt e, e ∈ entries (lruOf pt c) -> segmentUUID (entryKey e) <> u.
Proof.
  unfold holds. rewrite <- not_true_iff_false, existsb_exists. split.
  - intros Hno pt e He Hu. apply Hno. exists pt. split.
    + destruct pt; simpl; tauto.
    + apply existsb_exists. exists e. split; [by apply list_elem_of_In|].
      by apply bool_decide_eq_true.
  - intros Hall (pt & _ & (e & He & Hu)%existsb_exists).
    apply bool_decide_eq_true in Hu. apply list_elem_of_In in He.
    by eapply Hall.
Qed.

(** After a purge nothing of the segment is left. *)
Lemma PurgeSegment_holds u c : wf c -> holds u (snd (PurgeSegment u c)) = false.
Proof.
  intros Hwf. apply holds_false. intros pt e He.
  destruct (PurgeSegment_spec u c Hwf) as (_ & _ & _ & Hes).
  destruct (Hes pt) as [_ Hout]. by apply Hout.
Qed.

Lemma holds_false_peek u c k :
  holds u c = false -> segmentUUID k = u -> peek k c = None.
Proof.
  intros Hno Hu. unfold peek. destruct (enabled (patternType k) c); [|done].
  destruct (lruLookup k _) as [e|] eqn:Hl; [|done].
  apply lruLookup_Some in Hl as [Hk He].
  rewrite holds_false in Hno. exfalso. eapply Hno; [done|]. by rewrite Hk.
Qed.
End CacheFacts.

(** * Facts about the monad and the calls on a cache *)

Lemma callCache_Some {A} a ev (f : PostingsListCache.t -> A * PostingsListCache.t) w c :
  store w !! a = Some c ->
  callCache (Some a) ev f w =
  Done (fst (f c)) (mkWorld (<[a := snd (f c)]> (store w)) (trace w ++ [ev a])).
Proof. intros H. unfold callCache. rewrite H. by destruct (f c). Qed.

Lemma cacheGet_hit a k w c pl :
  store w !! a = Some c -> PostingsListCache.peek k c = Some pl ->
  cacheGet (Some a) k w = Done (Some pl) (promoted a k c w).
Proof.
  intros Ha Hp. unfold cacheGet. rewrite (callCache_Some _ _ _ _ _ Ha).
  by rewrite get_fst, Hp.
Qed.

Lemma cacheGet_miss a k w c :
  store w !! a = Some c -> PostingsListCache.peek k c = None ->
  cacheGet (Some a) k w = Done None (delegated (EvCacheGet a k) w).
Proof.
  intros Ha Hp. unfold cacheGet. rewrite (callCache_Some _ _ _ _ _ Ha).
  rewrite (get_miss _ _ Hp). simpl. by rewrite insert_id.
Qed.

Lemma cachePut_Some a k pl w c :
  store w !! a = Some c ->
  cachePut (Some a) k pl w =
  Done tt
    (mkWorld (<[a := PostingsListCache.put k pl c]> (store w))
       (trace w ++ [EvCachePut a k pl])).
Proof. intros Ha. unfold cachePut. by rewrite (callCache_Some _ _ _ _ _ Ha). Qed.

Lemma caching_true h flag :
  caching h flag = true <-> (exists a, h = Some a) /\ flag = true.
Proof.
  unfold caching. destruct h as [a|], flag; simpl; split; try done.
  - intros _. split; [by exists a|done].
  - by intros [_ ?].
  - by intros [[? ?] _].
  - by intros [[? ?] _].
Qed.

Lemma caching_false h flag :
  caching h flag = false <-> h = None \/ flag = false.
Proof.
  unfold caching. destruct h as [a|], flag; simpl; split; try done; auto.
  by intros [?|?].
Qed.

(** * Facts about the reader *)

Ltac bypass :=
  intros [Hh|Hf]%caching_false; rewrite ?Hh, ?Hf; simpl;
  rewrite ?orb_true_r; reflexivity.

Ltac on_hit Ha Hp get :=
  unfold regexpKey, termKey, fieldKey, searchKey in *; simpl; unfold get, mbind, M_bind;
  rewrite (cacheGet_hit _ _ _ _ _ Ha Hp); reflexivity.

Ltac on_miss Ha Hp get put :=
  unfold regexpKey, termKey, fieldKey, searchKey in *; simpl;
  unfold get, put, readThroughSegmentReader.underlying, emit, mbind, M_bind,
    mret, M_ret;
  rewrite (cacheGet_miss _ _ _ _ Ha Hp);
  match goal with
  | |- context [match ?r with Ok _ => _ | Err _ => _ end] => destruct r
  end; simpl;
  [ rewrite Ha; simpl; by rewrite <- !app_assoc
  | by rewrite <- !app_assoc ].

Section ReaderFacts.
Variables (s : readThroughSegmentReader.t) (w : World).

Let u := readThroughSegmentReader.uuid s.
Let segCache := SegmentPostingsListCache (readThroughSegmentReader.caches s).
Let searchCache := SearchPostingsListCache (readThroughSegmentReader.caches s).
Let options := readThroughSegmentReader.opts s.
Let under := readThroughSegmentReader.reader s.

Lemma MatchTerm_bypass f tm :
  caching segCache (CacheTerms options) = false ->
  readThroughSegmentReader.MatchTerm s f tm w =
  Done (segment.MatchTerm under f tm)
    (delegated (EvReader u (CallMatchTerm f tm)) w).
Proof. unfold readThroughSegmentReader.MatchTerm, segCache, options. bypass. Qed.

Lemma MatchTerm_hit f tm a c pl :
  segCache = Some a -> CacheTerms options = true ->
  store w !! a = Some c ->
  PostingsListCache.peek (termKey u f tm) c = Some pl ->
  readThroughSegmentReader.MatchTerm s f tm w =
  Done (Ok pl) (promoted a (termKey u f tm) c w).
Proof.
  unfold segCache, options, u, under.
  intros Hh Hf Ha Hp. unfold readThroughSegmentReader.MatchTerm. rewrite Hh, Hf.
  on_hit Ha Hp cache_GetTerm.
Qed.

Lemma MatchTerm_miss f tm a c :
  segCache = Some a -> CacheTerms options = true ->
  store w !! a = Some c ->
  PostingsListCache.peek (termKey u f tm) c = None ->
  readThroughSegmentReader.MatchTerm s f tm w =
  Done (segment.MatchTerm under f tm)
    (filled a (termKey u f tm) c (EvReader u (CallMatchTerm f tm))
       (segment.MatchTerm under f tm) w).
Proof.
  unfold segCache, options, u, under.
  intros Hh Hf Ha Hp. unfold readThroughSegmentReader.MatchTerm, filled.
  rewrite Hh, Hf. on_miss Ha Hp cache_GetTerm cache_PutTerm.
Qed.

Lemma MatchRegexp_bypass f cr :
  caching segCache (CacheRegexp options) = false ->
  readThroughSegmentReader.MatchRegexp s f cr w =
  Done (segment.MatchRegexp under f cr)
    (delegated (EvReader u (CallMatchRegexp f cr)) w).
Proof. unfold readThroughSegmentReader.MatchRegexp, segCache, options. bypass. Qed.

Lemma MatchRegexp_hit f cr a c pl :
  segCache = Some a -> CacheRegexp options = true ->
  store w !! a = Some c ->
  PostingsListCache.peek (regexpKey u f cr) c = Some pl ->
  readThroughSegmentReader.MatchRegexp s f cr w =
  Done (Ok pl) (promoted a (regexpKey u f cr) c w).
Proof.
  unfold segCache, options, u, under.
  intros Hh Hf Ha Hp. unfold readThroughSegmentReader.MatchRegexp. rewrite Hh, Hf.
  on_hit Ha Hp cache_GetRegexp.
Qed.

Lemma MatchRegexp_miss f cr a c :
  segCache = Some a -> CacheRegexp options = true ->
  store w !! a = Some c ->
  PostingsListCache.peek (regexpKey u f cr) c = None ->
  readThroughSegmentReader.MatchRegexp s f cr w =
  Done (segment.MatchRegexp under f cr)
    (filled a (regexpKey u f cr) c (EvReader u (CallMatchRegexp f cr))
       (segment.MatchRegexp under f cr) w).
Proof.
  unfold segCache, options, u, under.
  intros Hh Hf Ha Hp. unfold readThroughSegmentReader.MatchRegexp, filled.
  rewrite Hh, Hf. on_miss Ha Hp cache_GetRegexp cache_PutRegexp.
Qed.

Lemma MatchField_bypass f :
  caching segCache (CacheTerms options) = false ->
  readThroughSegmentReader.MatchField s f w =
  Done (segment.MatchField under f)
    (delegated (EvReader u (CallMatchField f)) w).
Proof. unfold readThroughSegmentReader.MatchField, segCache, options. bypass. Qed.

Lemma MatchField_hit f a c pl :
  segCache = Some a -> CacheTerms options = true ->
  store w !! a = Some c ->
  PostingsListCache.peek (fieldKey u f) c = Some pl ->
  readThroughSegmentReader.MatchField s f w =
  Done (Ok pl) (promoted a (fieldKey u f) c w).
Proof.
  unfold segCache, options, u, under.
  intros Hh Hf Ha Hp. unfold readThroughSegmentReader.MatchField. rewrite Hh, Hf.
  on_hit Ha Hp cache_GetField.
Qed.

Lemma MatchField_miss f a c :
  segCache = Some a -> CacheTerms options = true ->
  store w !! a = Some c ->
  PostingsListCache.peek (fieldKey u f) c = None ->
  readThroughSegmentReader.MatchField s f w =
  Done (segment.MatchField under f)
    (filled a (fieldKey u f) c (EvReader u (CallMatchField f))
       (segment.MatchField under f) w).
Proof.
  unfold segCache, options, u, under.
  intros Hh Hf Ha Hp. unfold readThroughSegmentReader.MatchField, filled.
  rewrite Hh, Hf. on_miss Ha Hp cache_GetField cache_PutField.
Qed.

Lemma Search_bypass q sr :
  caching searchCache (CacheSearches options) = false ->
  readThroughSegmentReader.Search s q sr w = sr s w.
Proof. unfold readThroughSegmentReader.Search, searchCache, options. bypass. Qed.

Lemma Search_hit q sr a c pl :
  searchCache = Some a -> CacheSearches options = true ->
  store w !! a = Some c ->
  PostingsListCache.peek (searchKey u (search.Query_String q)) c = Some pl ->
  readThroughSegmentReader.Search s q sr w =
  Done (Ok pl) (promoted a (searchKey u (search.Query_String q)) c w).
Proof.
  unfold searchCache, options, u.
  intros Hh Hf Ha Hp. unfold readThroughSegmentReader.Search. rewrite Hh, Hf.
  on_hit Ha Hp cache_GetSearch.
Qed.

Lemma Search_miss q sr a c :
  searchCache = Some a -> CacheSearches options = true ->
  store w !! a = Some c ->
  PostingsListCache.peek (searchKey u (search.Query_String q)) c = None ->
  readThroughSegmentReader.Search s q sr w =
  match sr s (delegated (EvCacheGet a (searchKey u (search.Query_String q))) w) with
  | Done (Ok pl) w1 =>
      match store w1 !! a with
      | Some c1 =>
          Done (Ok pl)
            (mkWorld
               (<[a := PostingsListCache.put
                         (searchKey u (search.Query_String q)) pl c1]> (store w1))
               (trace w1 ++ [EvCachePut a (searchKey u (search.Query_String q)) pl]))
      | None => Panic
      end
  | Done (Err e) w1 => Done (Err e) w1
  | Panic => Panic
  end.
Proof.
  unfold searchCache, options, u.
  intros Hh Hf Ha Hp. unfold readThroughSegmentReader.Search. rewrite Hh, Hf.
  unfold searchKey in *. simpl.
  unfold cache_GetSearch, cache_PutSearch, mbind, M_bind, mret, M_ret.
  rewrite (cacheGet_miss _ _ _ _ Ha Hp).
  destruct (sr s _) as [[pl|e] w1|]; [|done|done].
  unfold cachePut, callCache. by destruct (store w1 !! a).
Qed.
End ReaderFacts.

(** A run that behaves like a read-through over [res] returns [res]
    whenever the cache agrees with [res], and leaves the cache agreeing. *)
Lemma read_through_sound h flag k ev res w (run : M (result postings.List)) :
  (caching h flag = false -> run w = Done res (delegated ev w)) ->
  (forall a c pl, h = Some a -> flag = true -> store w !! a = Some c ->
     PostingsListCache.peek k c = Some pl -> run w = Done (Ok pl) (promoted a k c w)) ->
  (forall a c, h = Some a -> flag = true -> store w !! a = Some c ->
     PostingsListCache.peek k c = None -> run w = Done res (filled a k c ev res w)) ->
  validHandle h w ->
  (caching h flag = true -> agrees h k res w) ->
  exists w', run w = Done res w' /\
    (caching h flag = true -> agrees h k res w') /\
    forall h', validHandle h' w -> validHandle h' w'.
Proof.
  intros Hby Hhit Hmiss Hv Hag.
  destruct (caching h flag) eqn:Hc.
  - specialize (Hag eq_refl).
    apply caching_true in Hc as [[a ->] ->].
    destruct Hv as [c Hc]. destruct (PostingsListCache.peek k c) as [pl|] eqn:Hp.
    + exists (promoted a k c w). rewrite (Hag a c pl eq_refl Hc Hp).
      split; [by eapply Hhit|]. split.
      * intros _ a' c' pl' [= <-]. simpl. rewrite lookup_insert_eq. intros [= <-].
        rewrite peek_get. congruence.
      * intros [a'|] Hv'; [|done]. simpl.
        destruct (decide (a = a')) as [<-|Hne].
        -- by rewrite lookup_insert_eq.
        -- by rewrite lookup_insert_ne.
    + exists (filled a k c ev res w). split; [by eapply Hmiss|].
      unfold filled. destruct res as [pl|e]; split.
      * intros _ a' c' pl' [= <-]. simpl. rewrite lookup_insert_eq. intros [= <-].
        intros [[_ ->]|Hold]%peek_put; [done|congruence].
      * intros [a'|] Hv'; [|done]. simpl.
        destruct (decide (a = a')) as [<-|Hne].
        -- by rewrite lookup_insert_eq.
        -- by rewrite lookup_insert_ne.
      * intros _ a' c' pl' [= <-]. simpl. congruence.
      * by intros [a'|] Hv'.
  - exists (delegated ev w). split; [by apply Hby|]. split; [done|].
    by intros [a'|] Hv'.
Qed.

Lemma misses_agrees h k res w : misses h k w -> agrees h k res w.
Proof. intros Hm a c pl Hh Hc Hp. rewrite (Hm a c Hh Hc) in Hp. done. Qed.

(** Two calls in a row, the first on a cold cache. *)
Lemma read_through_twice h flag k ev res (run : M (result postings.List)) w :
  (forall w, caching h flag = false -> run w = Done res (delegated ev w)) ->
  (forall w a c pl, h = Some a -> flag = true -> store w !! a = Some c ->
     PostingsListCache.peek k c = Some pl -> run w = Done (Ok pl) (promoted a k c w)) ->
  (forall w a c, h = Some a -> flag = true -> store w !! a = Some c ->
     PostingsListCache.peek k c = None -> run w = Done res (filled a k c ev res w)) ->
  validHandle h w ->
  (caching h flag = true -> misses h k w) ->
  exists w1 w2, run w = Done res w1 /\ run w1 = Done res w2.
Proof.
  intros Hby Hhit Hmiss Hv Hcold.
  destruct (read_through_sound h flag k ev res w run) as (w1 & Hr1 & Hag1 & Hv1);
    [by apply Hby|by apply Hhit|by apply Hmiss|done| |].
  { intros Hc. by apply misses_agrees, Hcold. }
  destruct (read_through_sound h flag k ev res w1 run) as (w2 & Hr2 & _ & _);
    [by apply Hby|by apply Hhit|by apply Hmiss|by apply Hv1|done|].
  by exists w1, w2.
Qed.

(** * Facts about the segment *)

Lemma purgeStore_Some a u (m : gmap nat PostingsListCache.t) c :
  m !! a = Some c ->
  purgeStore (Some a) u m = <[a := snd (PostingsListCache.PurgeSegment u c)]> m.
Proof. intros H. unfold purgeStore. by rewrite H. Qed.

Lemma purgeStore_valid h u (m : gmap nat PostingsListCache.t) a :
  is_Some (m !! a) -> is_Some (purgeStore h u m !! a).
Proof.
  intros Ha. destruct h as [a'|]; [|done]. simpl.
  destruct (m !! a') as [c'|] eqn:Hc'; [|done].
  destruct (decide (a' = a)) as [->|Hne].
  - by rewrite lookup_insert_eq.
  - by rewrite lookup_insert_ne.
Qed.

Lemma purgeStore_wf h u m : wfStore m -> wfStore (purgeStore h u m).
Proof.
  intros Hwf. destruct h as [a'|]; [|done]. simpl.
  destruct (m !! a') as [c'|] eqn:Hc'; [|done].
  intros a c. destruct (decide (a' = a)) as [->|Hne].
  - rewrite lookup_insert_eq. intros [= <-]. apply wf_PurgeSegment. by eapply Hwf.
  - rewrite lookup_insert_ne by done. apply Hwf.
Qed.

(** A purge through any handle leaves purged caches purged. *)
Lemma purgeStore_keeps h u m a c :
  wfStore m -> m !! a = Some c -> PostingsListCache.holds u c = false ->
  exists c', purgeStore h u m !! a = Some c' /\ PostingsListCache.holds u c' = false.
Proof.
  intros Hwf Ha Hno. destruct h as [a'|]; [|by exists c]. simpl.
  destruct (m !! a') as [c'|] eqn:Hc'; [|by exists c].
  destruct (decide (a' = a)) as [->|Hne].
  - rewrite lookup_insert_eq. eexists. split; [done|].
    apply PurgeSegment_holds. by eapply Hwf.
  - rewrite lookup_insert_ne by done. by exists c.
Qed.

Lemma purgeStore_purges u m a c :
  wfStore m -> m !! a = Some c ->
  exists c', purgeStore (Some a) u m !! a = Some c' /\
    PostingsListCache.holds u c' = false.
Proof.
  intros Hwf Ha. rewrite (purgeStore_Some _ _ _ _ Ha), lookup_insert_eq.
  eexists. split; [done|]. apply PurgeSegment_holds. by eapply Hwf.
Qed.

Lemma purge_run h u w :
  validHandle h w ->
  (if negb (isNil h) then cache_PurgeSegment h u ;; mret tt else mret tt) w =
  Done tt (mkWorld (purgeStore h u (store w)) (trace w ++ purgeEvents h u)).
Proof.
  destruct h as [a|]; simpl.
  - intros [c Hc]. unfold cache_PurgeSegment, mbind, M_bind, mret, M_ret.
    rewrite (callCache_Some _ _ _ _ _ Hc). by rewrite Hc.
  - intros _. unfold mret, M_ret. destruct w. simpl. by rewrite app_nil_r.
Qed.

Lemma Reader_closed r w :
  ReadThroughSegment.closed r = true ->
  ReadThroughSegment.Reader r w = Done (Err errCantGetReaderFromClosedSegment) w.
Proof. intros H. unfold ReadThroughSegment.Reader. by rewrite H. Qed.

Lemma Close_closed r w :
  ReadThroughSegment.closed r = true ->
  ReadThroughSegment.Close r w = Done (r, Some errCantCloseClosedSegment) w.
Proof. intros H. unfold ReadThroughSegment.Close. by rewrite H. Qed.

Lemma Close_open r w :
  ReadThroughSegment.closed r = false ->
  validCaches (ReadThroughSegment.caches r) w ->
  ReadThroughSegment.Close r w =
  Done (ReadThroughSegment.setClosed r,
        segment.seg_Close (ReadThroughSegment.segment r))
    (delegated (EvSegment (ReadThroughSegment.uuid r) CallSegClose)
       (purgedWorld r w)).
Proof.
  intros Hopen [Hv1 Hv2]. unfold ReadThroughSegment.Close. rewrite Hopen.
  cbv zeta. unfold mbind at 1 2 3. unfold M_bind at 1 2 3.
  unfold emit at 1. cbn [ReadThroughSegment.setClosed ReadThroughSegment.uuid
    ReadThroughSegment.caches ReadThroughSegment.segment].
  rewrite purge_run by exact Hv1.
  rewrite purge_run.
  2:{ destruct (SearchPostingsListCache _) as [a2|]; [|done]. simpl.
      by apply purgeStore_valid. }
  unfold ReadThroughSegment.underlying, emit, mbind, M_bind, mret, M_ret,
    delegated, purgedWorld. simpl.
  do 2 f_equal. rewrite <- !app_assoc. simpl. by rewrite <- ?app_assoc.
Qed.

(** * Well-formedness is an invariant of the program *)

Lemma callCache_wf {A} h ev (f : PostingsListCache.t -> A * PostingsListCache.t)
    w x w' :
  (forall c, PostingsListCache.wf c -> PostingsListCache.wf (snd (f c))) ->
  wfWorld w -> callCache h ev f w = Done x w' -> wfWorld w'.
Proof.
  intros Hf Hwf. unfold callCache. destruct h as [a|]; [|done].
  destruct (store w !! a) as [c|] eqn:Hc; [|done].
  destruct (f c) as [y c'] eqn:Hfc. intros [= _ <-].
  unfold wfWorld, wfStore. simpl. apply map_Forall_insert_2; [|done].
  specialize (Hf c (Hwf a c Hc)). by rewrite Hfc in Hf.
Qed.

Lemma cacheGet_wf h k w x w' :
  wfWorld w -> cacheGet h k w = Done x w' -> wfWorld w'.
Proof. apply callCache_wf. intros c. apply wf_get. Qed.

Lemma cachePut_wf h k pl w x w' :
  wfWorld w -> cachePut h k pl w = Done x w' -> wfWorld w'.
Proof. apply callCache_wf. intros c. apply wf_put. Qed.

Lemma cache_PurgeSegment_wf h u w x w' :
  wfWorld w -> cache_PurgeSegment h u w = Done x w' -> wfWorld w'.
Proof. apply callCache_wf. intros c. apply wf_PurgeSegment. Qed.

Lemma emit_wf e w : wfWorld w -> wfWorld (delegated e w).
Proof. done. Qed.

Ltac match_wf :=
  let Hwf := fresh "Hwf" in
  let Hget := fresh "Hget" in
  let Hput := fresh "Hput" in
  intros Hwf;
  destruct (isNil _ || negb _); [by intros [= _ <-]|];
  unfold mbind at 1; unfold M_bind at 1;
  match goal with
  | |- match ?m with _ => _ end = _ -> _ =>
      destruct m as [[?|] ?|] eqn:Hget; [| |done]
  end;
  [ intros [= _ <-]; by eapply cacheGet_wf
  | apply cacheGet_wf in Hget; [|done];
    unfold readThroughSegmentReader.underlying, emit, mbind, M_bind, mret, M_ret;
    match goal with
    | |- context [match ?r with Ok _ => _ | Err _ => _ end] =>
        destruct r; simpl
    end;
    [ match goal with
      | |- match ?m with _ => _ end = _ -> _ =>
          destruct m as [[] ?|] eqn:Hput; [|done]
      end;
      intros [= _ <-]; eapply cachePut_wf; [|exact Hput]; done
    | by intros [= _ <-] ] ].

Lemma MatchTerm_wf s f tm w res w' :
  wfWorld w -> readThroughSegmentReader.MatchTerm s f tm w = Done res w' ->
  wfWorld w'.
Proof.
  unfold readThroughSegmentReader.MatchTerm. match_wf.
Qed.

Lemma MatchRegexp_wf s f cr w res w' :
  wfWorld w -> readThroughSegmentReader.MatchRegexp s f cr w = Done res w' ->
  wfWorld w'.
Proof.
  unfold readThroughSegmentReader.MatchRegexp.
  match_wf.
Qed.

Lemma MatchField_wf s f w res w' :
  wfWorld w -> readThroughSegmentReader.MatchField s f w = Done res w' ->
  wfWorld w'.
Proof.
  unfold readThroughSegmentReader.MatchField.
  match_wf.
Qed.

Lemma Close_wf r w res w' :
  wfWorld w -> ReadThroughSegment.Close r w = Done res w' -> wfWorld w'.
Proof.
  intros Hwf. unfold ReadThroughSegment.Close.
  destruct (ReadThroughSegment.closed r); [by intros [= _ <-]|].
  cbv zeta. unfold mbind at 1 2 3. unfold M_bind at 1 2 3. unfold emit at 1.
  set (w0 := mkWorld _ _).
  assert (wfWorld w0) as Hwf0 by done. clearbody w0.
  assert (forall h u w1 w2 x,
            wfWorld w1 ->
            (if negb (isNil h) then cache_PurgeSegment h u ;; mret tt else mret tt) w1
              = Done x w2 -> wfWorld w2) as Hpurge.
  { intros h u w1 w2 x Hw1. destruct (isNil h); simpl; [by intros [= _ <-]|].
    unfold mbind, M_bind.
    destruct (cache_PurgeSegment h u w1) as [n w3|] eqn:Hp; [|done].
    intros [= _ <-]. by eapply cache_PurgeSegment_wf. }
  cbn [ReadThroughSegment.setClosed ReadThroughSegment.uuid
    ReadThroughSegment.caches ReadThroughSegment.segment].
  match goal with
  | |- match ?m w0 with _ => _ end = _ -> _ => destruct (m w0) as [[] w1|] eqn:H1
  end; [|done].
  apply Hpurge in H1; [|done].
  match goal with
  | |- match ?m w1 with _ => _ end = _ -> _ => destruct (m w1) as [[] w2|] eqn:H2
  end; [|done].
  apply Hpurge in H2; [|done].
  unfold ReadThroughSegment.underlying, emit, mbind, M_bind, mret, M_ret.
  by intros [= _ <-].
Qed.

Lemma PutCachedSearchPattern_wf r queryStr query pl w x w' :
  wfWorld w ->
  ReadThroughSegment.PutCachedSearchPattern r queryStr query pl w = Done x w' ->
  wfWorld w'.
Proof.
  intros Hwf. unfold ReadThroughSegment.PutCachedSearchPattern.
  destruct (ReadThroughSegment.closed r); [by intros [= _ <-]|].
  destruct (isNil _ || negb _); [by intros [= _ <-]|].
  by apply cachePut_wf.
Qed.

(** [Search] keeps the invariant when the searcher does. *)
Lemma Search_wf s q (sr : readThroughSegmentReader.Searcher) w res w' :
  (forall w0 res0 w1, wfWorld w0 -> sr s w0 = Done res0 w1 -> wfWorld w1) ->
  wfWorld w -> readThroughSegmentReader.Search s q sr w = Done res w' ->
  wfWorld w'.
Proof.
  intros Hsr Hwf. unfold readThroughSegmentReader.Search.
  destruct (isNil _ || negb _); [by apply Hsr|].
  unfold mbind at 1. unfold M_bind at 1.
  destruct (cache_GetSearch _ _ _ w) as [[pl|] w1|] eqn:Hget; [| |done].
  - intros [= _ <-]. by eapply cacheGet_wf.
  - apply cacheGet_wf in Hget; [|done].
    unfold mbind, M_bind.
    destruct (sr s w1) as [[pl|e] w2|] eqn:Hrun; [| |done].
    + apply Hsr in Hrun; [|done].
      destruct (cache_PutSearch _ _ _ _ _ w2) as [[] w3|] eqn:Hput; [|done].
      intros [= _ <-]. by eapply cachePut_wf.
    + intros [= _ <-]. by eapply Hsr.
Qed.

(** * Properties of the read-through segment and its reader *)

(** C8. [MatchAll], [AllDocs], [Docs], [Metadata], [MetadataIterator],
    [Fields], [FieldsPostingsList], [Terms] and [ContainsField] of the
    read-through reader return what the same call on the underlying
    reader returns, for every input; the store of caches is left as it
    was and the only call made is the one on the underlying reader. *)
Theorem C8_pass_through_methods (s : readThroughSegmentReader.t) (w : World)
    (id : N) (pl : postings.List) (f : bytes) :
  readThroughSegmentReader.MatchAll s w =
    Done (segment.MatchAll (readThroughSegmentReader.reader s))
      (delegated (EvReader (readThroughSegmentReader.uuid s) CallMatchAll) w) /\
  readThroughSegmentReader.AllDocs s w =
    Done (segment.AllDocs (readThroughSegmentReader.reader s))
      (delegated (EvReader (readThroughSegmentReader.uuid s) CallAllDocs) w) /\
  readThroughSegmentReader.Docs s pl w =
    Done (segment.Docs (readThroughSegmentReader.reader s) pl)
      (delegated (EvReader (readThroughSegmentReader.uuid s) (CallDocs pl)) w) /\
  readThroughSegmentReader.Metadata s id w =
    Done (segment.Metadata (readThroughSegmentReader.reader s) id)
      (delegated (EvReader (readThroughSegmentReader.uuid s) (CallMetadata id)) w) /\
  readThroughSegmentReader.MetadataIterator s pl w =
    Done (segment.MetadataIterator (readThroughSegmentReader.reader s) pl)
      (delegated
         (EvReader (readThroughSegmentReader.uuid s) (CallMetadataIterator pl)) w) /\
  readThroughSegmentReader.Fields s w =
    Done (segment.Fields (readThroughSegmentReader.reader s))
      (delegated (EvReader (readThroughSegmentReader.uuid s) CallFields) w) /\
  readThroughSegmentReader.FieldsPostingsList s w =
    Done (segment.FieldsPostingsList (readThroughSegmentReader.reader s))
      (delegated
         (EvReader (readThroughSegmentReader.uuid s) CallFieldsPostingsList) w) /\
  readThroughSegmentReader.Terms s f w =
    Done (segment.Terms (readThroughSegmentReader.reader s) f)
      (delegated (EvReader (readThroughSegmentReader.uuid s) (CallTerms f)) w) /\
  readThroughSegmentReader.ContainsField s f w =
    Done (segment.ContainsField (readThroughSegmentReader.reader s) f)
      (delegated
         (EvReader (readThroughSegmentReader.uuid s) (CallContainsField f)) w).
Proof. repeat split. Qed.

(** C4. On a closed segment [Reader] fails with the closed-segment error
    and yields no reader, and [Close] fails with the already-closed
    error; both leave the world untouched: no purge, no call on the
    underlying segment. *)
Theorem C4_closed_segment_errors (r : ReadThroughSegment.t) (w : World) :
  ReadThroughSegment.closed r = true ->
  ReadThroughSegment.Reader r w = Done (Err errCantGetReaderFromClosedSegment) w /\
  ReadThroughSegment.Close r w = Done (r, Some errCantCloseClosedSegment) w.
Proof. intros H. split; [by apply Reader_closed | by apply Close_closed]. Qed.

Lemma C4_witness :
  ReadThroughSegment.Reader (ReadThroughSegment.setClosed Example.rts) Example.world =
    Done (Err errCantGetReaderFromClosedSegment) Example.world /\
  ReadThroughSegment.Close (ReadThroughSegment.setClosed Example.rts) Example.world =
    Done (ReadThroughSegment.setClosed Example.rts, Some errCantCloseClosedSegment)
      Example.world.
Proof.
  apply (C4_closed_segment_errors
           (ReadThroughSegment.setClosed Example.rts) Example.world).
  reflexivity.
Defined.

(** C5. With [CacheRegexp] off, [MatchRegexp] goes straight to the
    underlying reader; with [CacheTerms] off, so do [MatchTerm] and
    [MatchField]; with [CacheSearches] off, [Search] is the searcher run
    on the reader.  In each case the store of caches is left as it was
    and no call on a cache is made, whatever the cache holds. *)
Theorem C5_disabled_kinds_bypass (s : readThroughSegmentReader.t) (w : World)
    (f tm : bytes) (cr : index.CompiledRegex) (q : search.Query)
    (sr : readThroughSegmentReader.Searcher) :
  (CacheRegexp (readThroughSegmentReader.opts s) = false ->
   readThroughSegmentReader.MatchRegexp s f cr w =
     Done (segment.MatchRegexp (readThroughSegmentReader.reader s) f cr)
       (delegated
          (EvReader (readThroughSegmentReader.uuid s) (CallMatchRegexp f cr)) w)) /\
  (CacheTerms (readThroughSegmentReader.opts s) = false ->
   readThroughSegmentReader.MatchTerm s f tm w =
     Done (segment.MatchTerm (readThroughSegmentReader.reader s) f tm)
       (delegated
          (EvReader (readThroughSegmentReader.uuid s) (CallMatchTerm f tm)) w) /\
   readThroughSegmentReader.MatchField s f w =
     Done (segment.MatchField (readThroughSegmentReader.reader s) f)
       (delegated
          (EvReader (readThroughSegmentReader.uuid s) (CallMatchField f)) w)) /\
  (CacheSearches (readThroughSegmentReader.opts s) = false ->
   readThroughSegmentReader.Search s q sr w = sr s w).
Proof.
  split; [|split].
  - intros H. apply MatchRegexp_bypass, caching_false. by right.
  - intros H. split.
    + apply MatchTerm_bypass, caching_false. by right.
    + apply MatchField_bypass, caching_false. by right.
  - intros H. apply Search_bypass, caching_false. by right.
Qed.

Lemma C5_witness :
  readThroughSegmentReader.MatchRegexp Example.rdOff (Example.b "shape")
      Example.squa Example.warm =
    Done (segment.MatchRegexp Example.reader (Example.b "shape") Example.squa)
      (delegated (EvReader 7%N (CallMatchRegexp (Example.b "shape") Example.squa))
         Example.warm) /\
  readThroughSegmentReader.MatchTerm Example.rdOff (Example.b "color")
      (Example.b "red") Example.warm =
    Done (Ok Example.redPostings)
      (delegated
         (EvReader 7%N (CallMatchTerm (Example.b "color") (Example.b "red")))
         Example.warm) /\
  readThroughSegmentReader.Search Example.rdOff Example.query Example.searcher
      Example.warm =
    Example.searcher Example.rdOff Example.warm.
Proof.
  destruct (C5_disabled_kinds_bypass Example.rdOff Example.warm
              (Example.b "shape") (Example.b "red") Example.squa
              Example.query Example.searcher) as (Hre & _ & Hse).
  destruct (C5_disabled_kinds_bypass Example.rdOff Example.warm
              (Example.b "color") (Example.b "red") Example.squa
              Example.query Example.searcher) as (_ & Hte & _).
  split; [exact (Hre eq_refl)|]. split; [exact (proj1 (Hte eq_refl))|].
  exact (Hse eq_refl).
Defined.

(** C10. A nil cache handle is never dereferenced.  With a nil
    [SegmentPostingsListCache], [MatchRegexp], [MatchTerm] and
    [MatchField] go straight to the underlying reader, as they do when
    the kind is disabled; with a nil [SearchPostingsListCache], [Search]
    is the searcher run on the reader, [PutCachedSearchPattern] does
    nothing and [CachedSearchPatterns] reports that searches are
    disabled.  [Close] of an open segment skips the purge of a nil cache,
    purges the other one, and still closes the underlying segment. *)
Theorem C10_nil_caches_are_safe (s : readThroughSegmentReader.t)
    (r : ReadThroughSegment.t) (w : World)
    (f tm : bytes) (cr : index.CompiledRegex) (q : search.Query)
    (sr : readThroughSegmentReader.Searcher) (queryStr : string)
    (pl : postings.List) (fn : CachedPatternForEachFn) :
  (SegmentPostingsListCache (readThroughSegmentReader.caches s) = None ->
   readThroughSegmentReader.MatchRegexp s f cr w =
     Done (segment.MatchRegexp (readThroughSegmentReader.reader s) f cr)
       (delegated
          (EvReader (readThroughSegmentReader.uuid s) (CallMatchRegexp f cr)) w) /\
   readThroughSegmentReader.MatchTerm s f tm w =
     Done (segment.MatchTerm (readThroughSegmentReader.reader s) f tm)
       (delegated
          (EvReader (readThroughSegmentReader.uuid s) (CallMatchTerm f tm)) w) /\
   readThroughSegmentReader.MatchField s f w =
     Done (segment.MatchField (readThroughSegmentReader.reader s) f)
       (delegated
          (EvReader (readThroughSegmentReader.uuid s) (CallMatchField f)) w)) /\
  (SearchPostingsListCache (readThroughSegmentReader.caches s) = None ->
   readThroughSegmentReader.Search s q sr w = sr s w) /\
  (SearchPostingsListCache (ReadThroughSegment.caches r) = None ->
   ReadThroughSegment.PutCachedSearchPattern r queryStr q pl w = Done tt w /\
   ReadThroughSegment.CachedSearchPatterns r fn w =
     Done (ReadThroughSegment.mkCachedSearchPatternsResult true []) w) /\
  (ReadThroughSegment.closed r = false ->
   (SegmentPostingsListCache (ReadThroughSegment.caches r) = None ->
    SearchPostingsListCache (ReadThroughSegment.caches r) = None ->
    ReadThroughSegment.Close r w =
      Done (ReadThroughSegment.setClosed r,
            segment.seg_Close (ReadThroughSegment.segment r))
        (mkWorld (store w)
           (trace w ++
            [EvSetClosed (ReadThroughSegment.uuid r);
             EvSegment (ReadThroughSegment.uuid r) CallSegClose]))) /\
   (forall a c,
      SegmentPostingsListCache (ReadThroughSegment.caches r) = None ->
      SearchPostingsListCache (ReadThroughSegment.caches r) = Some a ->
      store w !! a = Some c ->
      ReadThroughSegment.Close r w =
        Done (ReadThroughSegment.setClosed r,
              segment.seg_Close (ReadThroughSegment.segment r))
          (mkWorld
             (<[a := snd (PostingsListCache.PurgeSegment
                            (ReadThroughSegment.uuid r) c)]> (store w))
             (trace w ++
              [EvSetClosed (ReadThroughSegment.uuid r);
               EvCachePurge a (ReadThroughSegment.uuid r);
               EvSegment (ReadThroughSegment.uuid r) CallSegClose]))) /\
   (forall a c,
      SegmentPostingsListCache (ReadThroughSegment.caches r) = Some a ->
      SearchPostingsListCache (ReadThroughSegment.caches r) = None ->
      store w !! a = Some c ->
      ReadThroughSegment.Close r w =
        Done (ReadThroughSegment.setClosed r,
              segment.seg_Close (ReadThroughSegment.segment r))
          (mkWorld
             (<[a := snd (PostingsListCache.PurgeSegment
                            (ReadThroughSegment.uuid r) c)]> (store w))
             (trace w ++
              [EvSetClosed (ReadThroughSegment.uuid r);
               EvCachePurge a (ReadThroughSegment.uuid r);
               EvSegment (ReadThroughSegment.uuid r) CallSegClose])))).
Proof.
  split; [|split; [|split]].
  - intros H. split; [|split].
    + apply MatchRegexp_bypass, caching_false. by left.
    + apply MatchTerm_bypass, caching_false. by left.
    + apply MatchField_bypass, caching_false. by left.
  - intros H. apply Search_bypass, caching_false. by left.
  - intros H. split.
    + unfold ReadThroughSegment.PutCachedSearchPattern. rewrite H. simpl.
      by destruct (ReadThroughSegment.closed r).
    + unfold ReadThroughSegment.CachedSearchPatterns. by rewrite H.
  - intros Hopen. split; [|split].
    + intros H1 H2. rewrite Close_open; [|done|by split; rewrite ?H1, ?H2].
      unfold purgedWorld, delegated. rewrite H1, H2. simpl.
      by rewrite <- app_assoc.
    + intros a c H1 H2 Ha.
      rewrite Close_open; [|done|by split; rewrite ?H1, ?H2; simpl; rewrite ?Ha].
      unfold purgedWorld, delegated. rewrite H1, H2. simpl. rewrite Ha. simpl.
      by rewrite <- app_assoc.
    + intros a c H1 H2 Ha.
      rewrite Close_open; [|done|by split; rewrite ?H1, ?H2; simpl; rewrite ?Ha].
      unfold purgedWorld, delegated. rewrite H1, H2. simpl. rewrite Ha. simpl.
      by rewrite <- app_assoc.
Qed.

Lemma C10_witness :
  readThroughSegmentReader.MatchTerm Example.rdNil (Example.b "color")
      (Example.b "red") Example.warm =
    Done (Ok Example.redPostings)
      (delegated
         (EvReader 7%N (CallMatchTerm (Example.b "color") (Example.b "red")))
         Example.warm) /\
  readThroughSegmentReader.Search Example.rdNil Example.query Example.searcher
      Example.warm =
    Example.searcher Example.rdNil Example.warm /\
  ReadThroughSegment.CachedSearchPatterns Example.rtsNil (fun _ => mret tt)
      Example.warm =
    Done (ReadThroughSegment.mkCachedSearchPatternsResult true []) Example.warm /\
  ReadThroughSegment.Close Example.rtsNil Example.warm =
    Done (ReadThroughSegment.setClosed Example.rtsNil, None)
      (mkWorld (store Example.warm)
         (trace Example.warm ++ [EvSetClosed 7%N; EvSegment 7%N CallSegClose])) /\
  ReadThroughSegment.Close Example.rtsSearchOnly Example.world =
    Done (ReadThroughSegment.setClosed Example.rtsSearchOnly, None)
      (mkWorld
         (<[1 := snd (PostingsListCache.PurgeSegment 7%N Example.cache0)]>
            (store Example.world))
         [EvSetClosed 7%N; EvCachePurge 1 7%N; EvSegment 7%N CallSegClose]).
Proof.
  destruct (C10_nil_caches_are_safe Example.rdNil Example.rtsNil Example.warm
              (Example.b "color") (Example.b "red") Example.squa Example.query
              Example.searcher "q" Example.redPostings (fun _ => mret tt))
    as (Hm & Hs & Hp & Hc).
  destruct (C10_nil_caches_are_safe Example.rdNil Example.rtsSearchOnly
              Example.world
              (Example.b "color") (Example.b "red") Example.squa Example.query
              Example.searcher "q" Example.redPostings (fun _ => mret tt))
    as (_ & _ & _ & Hc').
  split; [exact (proj1 (proj2 (Hm eq_refl)))|].
  split; [exact (Hs eq_refl)|].
  split; [exact (proj2 (Hp eq_refl))|].
  split; [exact (proj1 (Hc eq_refl) eq_refl eq_refl)|].
  exact (proj1 (proj2 (Hc' eq_refl)) 1 Example.cache0 eq_refl eq_refl eq_refl).
Defined.

Lemma purgedWorld_purged r w :
  validCaches (ReadThroughSegment.caches r) w -> wfWorld w ->
  purgedOf (SegmentPostingsListCache (ReadThroughSegment.caches r))
    (ReadThroughSegment.uuid r) (purgedWorld r w) /\
  purgedOf (SearchPostingsListCache (ReadThroughSegment.caches r))
    (ReadThroughSegment.uuid r) (purgedWorld r w).
Proof.
  intros [Hv1 Hv2] Hwf. unfold purgedWorld, purgedOf. simpl.
  generalize dependent (SegmentPostingsListCache (ReadThroughSegment.caches r)).
  generalize dependent (SearchPostingsListCache (ReadThroughSegment.caches r)).
  generalize (ReadThroughSegment.uuid r).
  intros u h2 Hv2 h1 Hv1.
  assert (wfStore (purgeStore h1 u (store w))) as Hwf1 by by apply purgeStore_wf.
  split.
  - intros a c -> Hc. destruct Hv1 as [c1 Hc1].
    destruct (purgeStore_purges u _ _ _ Hwf Hc1) as (c1' & Hc1' & Hno).
    destruct (purgeStore_keeps h2 u _ _ _ Hwf1 Hc1' Hno) as (c2 & Hc2 & Hno2).
    pose proof (eq_trans (eq_sym Hc) Hc2) as [= ->].
    split; [done|]. intros k Hk. by eapply holds_false_peek.
  - intros a c -> Hc.
    destruct (purgeStore_valid h1 u _ _ Hv2) as [c1 Hc1].
    destruct (purgeStore_purges u _ _ _ Hwf1 Hc1) as (c2 & Hc2 & Hno).
    pose proof (eq_trans (eq_sym Hc) Hc2) as [= ->].
    split; [done|]. intros k Hk. by eapply holds_false_peek.
Qed.

(** C2. [Close] of a segment that is not closed sets the flag, then
    purges the segment's id from the segment cache and from the search
    cache (each when non-nil), and only then calls [Close] on the
    underlying segment: at that call, and after it, neither cache holds
    an entry of this segment. *)
Theorem C2_close_purges_then_closes (r : ReadThroughSegment.t) (w : World) :
  ReadThroughSegment.closed r = false ->
  validCaches (ReadThroughSegment.caches r) w ->
  wfWorld w ->
  exists w2 w',
    ReadThroughSegment.Close r w =
      Done (ReadThroughSegment.setClosed r,
            segment.seg_Close (ReadThroughSegment.segment r)) w' /\
    ReadThroughSegment.closed (ReadThroughSegment.setClosed r) = true /\
    w' = delegated (EvSegment (ReadThroughSegment.uuid r) CallSegClose) w2 /\
    trace w2 =
      trace w ++
      EvSetClosed (ReadThroughSegment.uuid r)
      :: purgeEvents (SegmentPostingsListCache (ReadThroughSegment.caches r))
           (ReadThroughSegment.uuid r) ++
         purgeEvents (SearchPostingsListCache (ReadThroughSegment.caches r))
           (ReadThroughSegment.uuid r) /\
    purgedOf (SegmentPostingsListCache (ReadThroughSegment.caches r))
      (ReadThroughSegment.uuid r) w2 /\
    purgedOf (SearchPostingsListCache (ReadThroughSegment.caches r))
      (ReadThroughSegment.uuid r) w2 /\
    purgedOf (SegmentPostingsListCache (ReadThroughSegment.caches r))
      (ReadThroughSegment.uuid r) w' /\
    purgedOf (SearchPostingsListCache (ReadThroughSegment.caches r))
      (ReadThroughSegment.uuid r) w'.
Proof.
  intros Hopen Hv Hwf.
  destruct (purgedWorld_purged r w Hv Hwf) as [Hp1 Hp2].
  exists (purgedWorld r w), (delegated (EvSegment (ReadThroughSegment.uuid r)
                                          CallSegClose) (purgedWorld r w)).
  split; [by apply Close_open|].
  split; [done|]. split; [done|]. split; [done|].
  split; [exact Hp1|]. split; [exact Hp2|]. split; [exact Hp1|exact Hp2].
Qed.

Lemma C2_witness :
  exists w2 w',
    ReadThroughSegment.Close Example.rts Example.warm =
      Done (ReadThroughSegment.setClosed Example.rts, None) w' /\
    ReadThroughSegment.closed (ReadThroughSegment.setClosed Example.rts) = true /\
    w' = delegated (EvSegment 7%N CallSegClose) w2 /\
    trace w2 =
      trace Example.warm ++ [EvSetClosed 7%N; EvCachePurge 0 7%N; EvCachePurge 1 7%N] /\
    purgedOf (Some 0) 7%N w2 /\ purgedOf (Some 1) 7%N w2 /\
    purgedOf (Some 0) 7%N w' /\ purgedOf (Some 1) 7%N w'.
Proof.
  apply (C2_close_purges_then_closes Example.rts Example.warm).
  - reflexivity.
  - split; vm_compute; eauto.
  - apply (bool_decide_unpack _). vm_compute. exact I.
Defined.

(** Every method leaves the struct as it was, or with the flag set. *)
Lemma step_struct op r w r' w' :
  step op r w = Done r' w' -> r' = r \/ r' = ReadThroughSegment.setClosed r.
Proof.
  destruct op; unfold step, mbind, M_bind, mret, M_ret;
    try (match goal with
         | |- context [match ?m w with Done _ _ => _ | Panic => _ end] =>
             destruct (m w); [intros [= <- _]; by left | done]
         end).
  unfold ReadThroughSegment.Close.
  destruct (ReadThroughSegment.closed r).
  - intros [= <- _]. by left.
  - unfold mbind, M_bind, mret, M_ret.
    repeat match goal with
           | |- context [match ?m ?x with Done _ _ => _ | Panic => _ end] =>
               destruct (m x); [|done]
           end.
    simpl. intros [= <- _]. by right.
Qed.

Lemma steps_closed ops r w r' w' :
  ReadThroughSegment.closed r = true ->
  steps ops r w = Done r' w' -> ReadThroughSegment.closed r' = true.
Proof.
  revert r w. induction ops as [|op ops IH]; intros r w Hc; simpl.
  - by intros [= <- _].
  - unfold mbind, M_bind. destruct (step op r w) as [r1 w1|] eqn:Hs; [|done].
    apply IH. by destruct (step_struct _ _ _ _ _ Hs) as [-> | ->].
Qed.

(** C9. [Close] of an open segment sets the flag before it purges and
    before it calls the underlying segment; whatever the underlying
    [Close] answers, error or not, the struct it leaves is closed and
    the purges were issued.  From then on [Reader] fails with the
    closed-segment error and [Close] with the already-closed error, in
    every world, and no sequence of methods brings a closed segment back
    to open. *)
Theorem C9_closed_flag_is_monotone (r : ReadThroughSegment.t) (w : World) :
  ReadThroughSegment.closed r = false ->
  validCaches (ReadThroughSegment.caches r) w ->
  exists w',
    ReadThroughSegment.Close r w =
      Done (ReadThroughSegment.setClosed r,
            segment.seg_Close (ReadThroughSegment.segment r)) w' /\
    ReadThroughSegment.closed (ReadThroughSegment.setClosed r) = true /\
    trace w' =
      trace w ++
      EvSetClosed (ReadThroughSegment.uuid r)
      :: purgeEvents (SegmentPostingsListCache (ReadThroughSegment.caches r))
           (ReadThroughSegment.uuid r) ++
         purgeEvents (SearchPostingsListCache (ReadThroughSegment.caches r))
           (ReadThroughSegment.uuid r) ++
         [EvSegment (ReadThroughSegment.uuid r) CallSegClose] /\
    (forall w2,
       ReadThroughSegment.Reader (ReadThroughSegment.setClosed r) w2 =
         Done (Err errCantGetReaderFromClosedSegment) w2 /\
       ReadThroughSegment.Close (ReadThroughSegment.setClosed r) w2 =
         Done (ReadThroughSegment.setClosed r, Some errCantCloseClosedSegment) w2) /\
    (forall ops r0 w2 r3 w3,
       ReadThroughSegment.closed r0 = true ->
       steps ops r0 w2 = Done r3 w3 ->
       ReadThroughSegment.closed r3 = true).
Proof.
  intros Hopen Hv. eexists. split; [by apply Close_open|].
  split; [done|]. split.
  - unfold delegated, purgedWorld. simpl. rewrite <- !app_assoc. simpl.
    by rewrite <- !app_assoc.
  - split.
    + intros w2. split; [by apply Reader_closed | by apply Close_closed].
    + intros ops r0 w2 r3 w3. apply steps_closed.
Qed.

Lemma C9_witness :
  exists w',
    ReadThroughSegment.Close Example.rtsCloseFails Example.warm =
      Done (ReadThroughSegment.setClosed Example.rtsCloseFails,
            Some (errExternal "munmap")) w' /\
    ReadThroughSegment.closed (ReadThroughSegment.setClosed Example.rtsCloseFails)
      = true /\
    trace w' =
      trace Example.warm ++
      [EvSetClosed 7%N; EvCachePurge 0 7%N; EvCachePurge 1 7%N;
       EvSegment 7%N CallSegClose] /\
    (forall w2,
       ReadThroughSegment.Reader
         (ReadThroughSegment.setClosed Example.rtsCloseFails) w2 =
         Done (Err errCantGetReaderFromClosedSegment) w2 /\
       ReadThroughSegment.Close
         (ReadThroughSegment.setClosed Example.rtsCloseFails) w2 =
         Done (ReadThroughSegment.setClosed Example.rtsCloseFails,
               Some errCantCloseClosedSegment) w2) /\
    (forall ops r0 w2 r3 w3,
       ReadThroughSegment.closed r0 = true ->
       steps ops r0 w2 = Done r3 w3 ->
       ReadThroughSegment.closed r3 = true).
Proof.
  apply (C9_closed_flag_is_monotone Example.rtsCloseFails Example.warm).
  - reflexivity.
  - split; vm_compute; eauto.
Defined.

(** C7. [PutCachedSearchPattern] returns without touching anything when
    the segment is closed, when the search cache handle is nil, or when
    [CacheSearches] is off.  On an open segment with a search cache and
    [CacheSearches] on, it puts the postings into that cache under the
    segment's id and the query string, and a cache that accepts the put
    then holds them under that key. *)
Theorem C7_put_cached_search_pattern (r : ReadThroughSegment.t) (w : World)
    (queryStr : string) (query : search.Query) (pl : postings.List) :
  (ReadThroughSegment.closed r = true \/
   SearchPostingsListCache (ReadThroughSegment.caches r) = None \/
   CacheSearches (ReadThroughSegment.opts r) = false ->
   ReadThroughSegment.PutCachedSearchPattern r queryStr query pl w = Done tt w) /\
  (forall a c,
     ReadThroughSegment.closed r = false ->
     SearchPostingsListCache (ReadThroughSegment.caches r) = Some a ->
     CacheSearches (ReadThroughSegment.opts r) = true ->
     store w !! a = Some c ->
     ReadThroughSegment.PutCachedSearchPattern r queryStr query pl w =
       Done tt
         (mkWorld
            (<[a := PostingsListCache.PutSearch (ReadThroughSegment.uuid r)
                      queryStr query pl c]> (store w))
            (trace w ++
             [EvCachePut a (searchKey (ReadThroughSegment.uuid r) queryStr) pl])) /\
     (PostingsListCache.cache_searches c = true ->
      ReadThroughSegment.uuid r ∉ PostingsListCache.purged c ->
      PostingsListCache.over (PostingsListCache.lruSearch c)
        [PostingsListCache.mkEntry (searchKey (ReadThroughSegment.uuid r) queryStr)
           pl (postings.memory_bytes pl)] = false ->
      PostingsListCache.peek (searchKey (ReadThroughSegment.uuid r) queryStr)
        (PostingsListCache.PutSearch (ReadThroughSegment.uuid r) queryStr query pl c)
      = Some pl)).
Proof.
  split.
  - unfold ReadThroughSegment.PutCachedSearchPattern.
    intros [-> | [-> | ->]]; [done| |].
    + by destruct (ReadThroughSegment.closed r).
    + destruct (ReadThroughSegment.closed r); [done|].
      by rewrite orb_true_r.
  - intros a c Hopen Hh Hf Ha. split.
    + unfold ReadThroughSegment.PutCachedSearchPattern.
      rewrite Hopen, Hh, Hf. cbn [isNil orb negb]. unfold cache_PutSearch.
      by rewrite (cachePut_Some _ _ _ _ _ Ha).
    + intros Hen Hp Hfit. unfold PostingsListCache.PutSearch.
      by apply peek_put_same.
Qed.

Lemma C7_witness :
  ReadThroughSegment.PutCachedSearchPattern
    (ReadThroughSegment.setClosed Example.rts) "q" Example.query
    Example.redPostings Example.world = Done tt Example.world /\
  ReadThroughSegment.PutCachedSearchPattern Example.rts "q" Example.query
    Example.redPostings Example.world =
    Done tt
      (mkWorld
         (<[1 := PostingsListCache.PutSearch 7%N "q" Example.query
                   Example.redPostings Example.cache0]> (store Example.world))
         [EvCachePut 1 (searchKey 7%N "q") Example.redPostings]) /\
  PostingsListCache.peek (searchKey 7%N "q")
    (PostingsListCache.PutSearch 7%N "q" Example.query Example.redPostings
       Example.cache0) = Some Example.redPostings.
Proof.
  destruct (C7_put_cached_search_pattern
              (ReadThroughSegment.setClosed Example.rts) Example.world "q"
              Example.query Example.redPostings) as [Hnoop _].
  destruct (C7_put_cached_search_pattern Example.rts Example.world "q"
              Example.query Example.redPostings) as [_ Hput].
  destruct (Hput 1 Example.cache0 eq_refl eq_refl eq_refl eq_refl) as [Hrun Hheld].
  split; [apply Hnoop; by left|]. split; [exact Hrun|].
  apply Hheld; [reflexivity| |reflexivity].
  apply (bool_decide_unpack _). vm_compute. exact I.
Defined.

(** C1. [MatchTerm], [MatchRegexp] and [MatchField] of a read-through
    reader return exactly what the underlying reader returns for the
    same arguments: on a cold cache, and again on the next identical call
    (which finds whatever the first one stored), whether the kind is
    enabled or not and whether there is a cache or not. *)
Theorem C1_read_through_correct (s : readThroughSegmentReader.t) (w : World)
    (f tm : bytes) (cr : index.CompiledRegex) :
  validHandle (SegmentPostingsListCache (readThroughSegmentReader.caches s)) w ->
  ((caching (SegmentPostingsListCache (readThroughSegmentReader.caches s))
      (CacheTerms (readThroughSegmentReader.opts s)) = true ->
    misses (SegmentPostingsListCache (readThroughSegmentReader.caches s))
      (termKey (readThroughSegmentReader.uuid s) f tm) w) ->
   exists w1 w2,
     readThroughSegmentReader.MatchTerm s f tm w =
       Done (segment.MatchTerm (readThroughSegmentReader.reader s) f tm) w1 /\
     readThroughSegmentReader.MatchTerm s f tm w1 =
       Done (segment.MatchTerm (readThroughSegmentReader.reader s) f tm) w2) /\
  ((caching (SegmentPostingsListCache (readThroughSegmentReader.caches s))
      (CacheRegexp (readThroughSegmentReader.opts s)) = true ->
    misses (SegmentPostingsListCache (readThroughSegmentReader.caches s))
      (regexpKey (readThroughSegmentReader.uuid s) f cr) w) ->
   exists w1 w2,
     readThroughSegmentReader.MatchRegexp s f cr w =
       Done (segment.MatchRegexp (readThroughSegmentReader.reader s) f cr) w1 /\
     readThroughSegmentReader.MatchRegexp s f cr w1 =
       Done (segment.MatchRegexp (readThroughSegmentReader.reader s) f cr) w2) /\
  ((caching (SegmentPostingsListCache (readThroughSegmentReader.caches s))
      (CacheTerms (readThroughSegmentReader.opts s)) = true ->
    misses (SegmentPostingsListCache (readThroughSegmentReader.caches s))
      (fieldKey (readThroughSegmentReader.uuid s) f) w) ->
   exists w1 w2,
     readThroughSegmentReader.MatchField s f w =
       Done (segment.MatchField (readThroughSegmentReader.reader s) f) w1 /\
     readThroughSegmentReader.MatchField s f w1 =
       Done (segment.MatchField (readThroughSegmentReader.reader s) f) w2).
Proof.
  intros Hv. split; [|split]; intros Hcold.
  - eapply read_through_twice; [| | |exact Hv|exact Hcold].
    + intros w0. apply MatchTerm_bypass.
    + intros w0 a c pl. apply MatchTerm_hit.
    + intros w0 a c. apply MatchTerm_miss.
  - eapply read_through_twice; [| | |exact Hv|exact Hcold].
    + intros w0. apply MatchRegexp_bypass.
    + intros w0 a c pl. apply MatchRegexp_hit.
    + intros w0 a c. apply MatchRegexp_miss.
  - eapply read_through_twice; [| | |exact Hv|exact Hcold].
    + intros w0. apply MatchField_bypass.
    + intros w0 a c pl. apply MatchField_hit.
    + intros w0 a c. apply MatchField_miss.
Qed.

Lemma cold_example k : misses (Some 0) k Example.world.
Proof.
  intros a c [= <-] Hc. change (Some Example.cache0 = Some c) in Hc.
  injection Hc as <-.
  unfold PostingsListCache.peek. by destruct (PostingsListCache.patternType k).
Qed.

Lemma C1_witness :
  (exists w1 w2,
     readThroughSegmentReader.MatchTerm Example.rd (Example.b "color")
         (Example.b "red") Example.world = Done (Ok Example.redPostings) w1 /\
     readThroughSegmentReader.MatchTerm Example.rd (Example.b "color")
         (Example.b "red") w1 = Done (Ok Example.redPostings) w2) /\
  (exists w1 w2,
     readThroughSegmentReader.MatchRegexp Example.rd (Example.b "shape")
         Example.squa Example.world = Done (Ok Example.squarePostings) w1 /\
     readThroughSegmentReader.MatchRegexp Example.rd (Example.b "shape")
         Example.squa w1 = Done (Ok Example.squarePostings) w2) /\
  (exists w1 w2,
     readThroughSegmentReader.MatchField Example.rd (Example.b "shape")
         Example.world = Done (Ok Example.redPostings) w1 /\
     readThroughSegmentReader.MatchField Example.rd (Example.b "shape") w1 =
       Done (Ok Example.redPostings) w2).
Proof.
  destruct (C1_read_through_correct Example.rd Example.world (Example.b "color")
              (Example.b "red") Example.squa) as (Ht & _ & _).
  { vm_compute. eauto. }
  destruct (C1_read_through_correct Example.rd Example.world (Example.b "shape")
              (Example.b "red") Example.squa) as (_ & Hr & Hf).
  { vm_compute. eauto. }
  split; [apply Ht; intros _; apply cold_example|].
  split; [apply Hr; intros _; apply cold_example|].
  apply Hf. intros _. apply cold_example.
Defined.

(** C6. The key of a [MatchRegexp] call is made of the segment id, the
    field and the FST-syntax string of the compiled regexp, so an entry
    stored for one compiled regexp answers every compiled regexp with
    the same FST-syntax string, without a call on the underlying reader.
    The key of a [Search] call is made of the segment id and the
    query's string, so an entry stored for one query answers every query
    with the same string, whichever searcher comes with it, and the
    searcher is not run. *)
Theorem C6_canonical_cache_keys (s : readThroughSegmentReader.t) (w : World)
    (f : bytes) (cr cr' : index.CompiledRegex) (q q' : search.Query)
    (sr : readThroughSegmentReader.Searcher)
    (a : addr) (c : PostingsListCache.t) (pl : postings.List) :
  store w !! a = Some c ->
  (SegmentPostingsListCache (readThroughSegmentReader.caches s) = Some a ->
   CacheRegexp (readThroughSegmentReader.opts s) = true ->
   regexpKey (readThroughSegmentReader.uuid s) f cr =
     PostingsListCache.mkKey (readThroughSegmentReader.uuid s)
       PostingsListCache.PatternTypeRegexp (string_of_bytes f)
       (index.FSTSyntax_String cr) /\
   (PostingsListCache.peek (regexpKey (readThroughSegmentReader.uuid s) f cr) c
      = None ->
    readThroughSegmentReader.MatchRegexp s f cr w =
      Done (segment.MatchRegexp (readThroughSegmentReader.reader s) f cr)
        (filled a (regexpKey (readThroughSegmentReader.uuid s) f cr) c
           (EvReader (readThroughSegmentReader.uuid s) (CallMatchRegexp f cr))
           (segment.MatchRegexp (readThroughSegmentReader.reader s) f cr) w)) /\
   (PostingsListCache.peek (regexpKey (readThroughSegmentReader.uuid s) f cr) c
      = Some pl ->
    index.FSTSyntax_String cr' = index.FSTSyntax_String cr ->
    readThroughSegmentReader.MatchRegexp s f cr' w =
      Done (Ok pl)
        (promoted a (regexpKey (readThroughSegmentReader.uuid s) f cr) c w))) /\
  (SearchPostingsListCache (readThroughSegmentReader.caches s) = Some a ->
   CacheSearches (readThroughSegmentReader.opts s) = true ->
   searchKey (readThroughSegmentReader.uuid s) (search.Query_String q) =
     PostingsListCache.mkKey (readThroughSegmentReader.uuid s)
       PostingsListCache.PatternTypeSearch EmptyString (search.Query_String q) /\
   (PostingsListCache.peek
      (searchKey (readThroughSegmentReader.uuid s) (search.Query_String q)) c
      = None ->
    forall pl1 w1 c1,
      sr s (delegated
              (EvCacheGet a
                 (searchKey (readThroughSegmentReader.uuid s)
                    (search.Query_String q))) w) = Done (Ok pl1) w1 ->
      store w1 !! a = Some c1 ->
      readThroughSegmentReader.Search s q sr w =
        Done (Ok pl1)
          (mkWorld
             (<[a := PostingsListCache.put
                       (searchKey (readThroughSegmentReader.uuid s)
                          (search.Query_String q)) pl1 c1]> (store w1))
             (trace w1 ++
              [EvCachePut a
                 (searchKey (readThroughSegmentReader.uuid s)
                    (search.Query_String q)) pl1]))) /\
   (PostingsListCache.peek
      (searchKey (readThroughSegmentReader.uuid s) (search.Query_String q)) c
      = Some pl ->
    search.Query_String q' = search.Query_String q ->
    forall sr',
      readThroughSegmentReader.Search s q' sr' w =
        Done (Ok pl)
          (promoted a
             (searchKey (readThroughSegmentReader.uuid s) (search.Query_String q))
             c w))).
Proof.
  intros Ha. split; intros Hh Hf; (split; [done|]); split.
  - intros Hp. by apply MatchRegexp_miss.
  - intros Hp Heq.
    assert (regexpKey (readThroughSegmentReader.uuid s) f cr =
            regexpKey (readThroughSegmentReader.uuid s) f cr') as Hk
      by (unfold regexpKey; by rewrite Heq).
    rewrite Hk in *. by apply MatchRegexp_hit.
  - intros Hp pl1 w1 c1 Hsr Hc1.
    rewrite (Search_miss s w q sr a c Hh Hf Ha Hp), Hsr. by rewrite Hc1.
  - intros Hp Heq sr'. rewrite <- Heq in *. by apply Search_hit.
Qed.

Lemma C6_witness :
  readThroughSegmentReader.MatchRegexp Example.rd (Example.b "shape")
      Example.squaAnchored Example.warm =
    Done (Ok Example.squarePostings)
      (promoted 0 (regexpKey 7%N (Example.b "shape") Example.squa)
         Example.warmSegmentCache Example.warm) /\
  readThroughSegmentReader.Search Example.rd Example.query Example.failingSearcher
      Example.warm =
    Done (Ok Example.redPostings)
      (promoted 1 (searchKey 7%N "term(color, red)") Example.warmSearchCache
         Example.warm).
Proof.
  assert (store Example.warm !! 0 = Some Example.warmSegmentCache) as Ha0
    by (vm_compute; reflexivity).
  assert (store Example.warm !! 1 = Some Example.warmSearchCache) as Ha1
    by (vm_compute; reflexivity).
  destruct (C6_canonical_cache_keys Example.rd Example.warm (Example.b "shape")
              Example.squa Example.squaAnchored Example.query Example.query
              Example.searcher 0 Example.warmSegmentCache Example.squarePostings
              Ha0) as [Hre _].
  destruct (C6_canonical_cache_keys Example.rd Example.warm (Example.b "shape")
              Example.squa Example.squaAnchored Example.query Example.query
              Example.searcher 1 Example.warmSearchCache Example.redPostings
              Ha1) as [_ Hse].
  destruct (Hre eq_refl eq_refl) as (_ & _ & Hshare).
  destruct (Hse eq_refl eq_refl) as (_ & _ & Hshare').
  split.
  - apply Hshare; vm_compute; reflexivity.
  - apply Hshare'; vm_compute; reflexivity.
Defined.

Lemma delegated_nil w : mkWorld (store w) (trace w ++ []) = w.
Proof. destruct w. simpl. by rewrite app_nil_r. Qed.

Lemma getEvents_caching_false h flag k :
  caching h flag = false -> getEvents h flag k = [].
Proof. intros [-> | ->]%caching_false; [done|]. by destruct h. Qed.

Ltac failing_match bypass miss :=
  intros Hv Hcold Herr;
  match goal with
  | |- context [getEvents ?h ?flag ?k] =>
      destruct (caching h flag) eqn:Hc;
      [ destruct (proj1 (caching_true _ _) Hc) as [[a Hh] Hf];
        rewrite Hh in Hv; destruct Hv as [c Ha];
        pose proof (Hcold eq_refl a c Hh Ha) as Hp;
        rewrite miss with (a := a) (c := c) by assumption;
        rewrite Herr, Hh, Hf; unfold filled; simpl; reflexivity
      | rewrite (getEvents_caching_false _ _ _ Hc);
        rewrite bypass by assumption; rewrite Herr; reflexivity ]
  end.

(** C3, as amended.  When the underlying reader is consulted and fails,
    [MatchTerm], [MatchRegexp] and [MatchField] return its error as it
    is, leave the store of caches as it was and put nothing.  When the
    searcher is run and fails, [Search] returns its error as it is and
    leaves the world exactly as the searcher left it: [Search] puts
    nothing itself. *)
Theorem C3_failures_are_not_cached (s : readThroughSegmentReader.t) (w : World)
    (f tm : bytes) (cr : index.CompiledRegex) (q : search.Query)
    (sr : readThroughSegmentReader.Searcher) (e : error) :
  (validHandle (SegmentPostingsListCache (readThroughSegmentReader.caches s)) w ->
   (caching (SegmentPostingsListCache (readThroughSegmentReader.caches s))
      (CacheTerms (readThroughSegmentReader.opts s)) = true ->
    misses (SegmentPostingsListCache (readThroughSegmentReader.caches s))
      (termKey (readThroughSegmentReader.uuid s) f tm) w) ->
   segment.MatchTerm (readThroughSegmentReader.reader s) f tm = Err e ->
   readThroughSegmentReader.MatchTerm s f tm w =
     Done (Err e)
       (mkWorld (store w)
          (trace w ++
           getEvents (SegmentPostingsListCache (readThroughSegmentReader.caches s))
             (CacheTerms (readThroughSegmentReader.opts s))
             (termKey (readThroughSegmentReader.uuid s) f tm) ++
           [EvReader (readThroughSegmentReader.uuid s) (CallMatchTerm f tm)]))) /\
  (validHandle (SegmentPostingsListCache (readThroughSegmentReader.caches s)) w ->
   (caching (SegmentPostingsListCache (readThroughSegmentReader.caches s))
      (CacheRegexp (readThroughSegmentReader.opts s)) = true ->
    misses (SegmentPostingsListCache (readThroughSegmentReader.caches s))
      (regexpKey (readThroughSegmentReader.uuid s) f cr) w) ->
   segment.MatchRegexp (readThroughSegmentReader.reader s) f cr = Err e ->
   readThroughSegmentReader.MatchRegexp s f cr w =
     Done (Err e)
       (mkWorld (store w)
          (trace w ++
           getEvents (SegmentPostingsListCache (readThroughSegmentReader.caches s))
             (CacheRegexp (readThroughSegmentReader.opts s))
             (regexpKey (readThroughSegmentReader.uuid s) f cr) ++
           [EvReader (readThroughSegmentReader.uuid s) (CallMatchRegexp f cr)]))) /\
  (validHandle (SegmentPostingsListCache (readThroughSegmentReader.caches s)) w ->
   (caching (SegmentPostingsListCache (readThroughSegmentReader.caches s))
      (CacheTerms (readThroughSegmentReader.opts s)) = true ->
    misses (SegmentPostingsListCache (readThroughSegmentReader.caches s))
      (fieldKey (readThroughSegmentReader.uuid s) f) w) ->
   segment.MatchField (readThroughSegmentReader.reader s) f = Err e ->
   readThroughSegmentReader.MatchField s f w =
     Done (Err e)
       (mkWorld (store w)
          (trace w ++
           getEvents (SegmentPostingsListCache (readThroughSegmentReader.caches s))
             (CacheTerms (readThroughSegmentReader.opts s))
             (fieldKey (readThroughSegmentReader.uuid s) f) ++
           [EvReader (readThroughSegmentReader.uuid s) (CallMatchField f)]))) /\
  (validHandle (SearchPostingsListCache (readThroughSegmentReader.caches s)) w ->
   (caching (SearchPostingsListCache (readThroughSegmentReader.caches s))
      (CacheSearches (readThroughSegmentReader.opts s)) = true ->
    misses (SearchPostingsListCache (readThroughSegmentReader.caches s))
      (searchKey (readThroughSegmentReader.uuid s) (search.Query_String q)) w) ->
   forall w1,
     sr s (mkWorld (store w)
             (trace w ++
              getEvents (SearchPostingsListCache (readThroughSegmentReader.caches s))
                (CacheSearches (readThroughSegmentReader.opts s))
                (searchKey (readThroughSegmentReader.uuid s)
                   (search.Query_String q)))) = Done (Err e) w1 ->
     readThroughSegmentReader.Search s q sr w = Done (Err e) w1).
Proof.
  split; [|split; [|split]].
  - failing_match MatchTerm_bypass MatchTerm_miss.
  - failing_match MatchRegexp_bypass MatchRegexp_miss.
  - failing_match MatchField_bypass MatchField_miss.
  - intros Hv Hcold w1.
    destruct (caching (SearchPostingsListCache (readThroughSegmentReader.caches s))
                (CacheSearches (readThroughSegmentReader.opts s))) eqn:Hc.
    + destruct (proj1 (caching_true _ _) Hc) as [[a Hh] Hf].
      rewrite Hh in Hv. destruct Hv as [c Ha].
      pose proof (Hcold eq_refl a c Hh Ha) as Hp.
      rewrite (Search_miss s w q sr a c Hh Hf Ha Hp), Hh, Hf. simpl.
      unfold delegated. by intros ->.
    + rewrite (getEvents_caching_false _ _ _ Hc), delegated_nil.
      by rewrite (Search_bypass s w q sr Hc).
Qed.

(** C3, as stated, fails: a searcher that looks up a term through the
    reader and then fails makes [Search] return the error, yet the term
    it looked up is in the segment cache afterwards. *)
Lemma C3_counterexample :
  readThroughSegmentReader.Search Example.rd Example.query Example.failingSearcher
      Example.world =
    Done (Err (errExternal "deadline")) Example.afterFailedSearch /\
  ~ noEntryStored Example.world Example.afterFailedSearch.
Proof.
  split; [vm_compute; reflexivity|].
  intros Hno.
  assert (store Example.world !! 0 = Some Example.cache0) as H0
    by (vm_compute; reflexivity).
  assert (store Example.afterFailedSearch !! 0 =
          Some (PostingsListCache.PutTerm 7%N "color" "red" Example.redPostings
                  Example.cache0)) as H1 by (vm_compute; reflexivity).
  specialize (Hno 0 _ _ (termKey 7%N (Example.b "color") (Example.b "red")) H0 H1).
  vm_compute in Hno. by specialize (Hno eq_refl).
Qed.

Lemma C3_witness :
  readThroughSegmentReader.MatchTerm Example.rdFailing (Example.b "color")
      (Example.b "red") Example.world =
    Done (Err (errExternal "unsupported"))
      (mkWorld (store Example.world)
         [EvCacheGet 0 (termKey 7%N (Example.b "color") (Example.b "red"));
          EvReader 7%N (CallMatchTerm (Example.b "color") (Example.b "red"))]) /\
  readThroughSegmentReader.Search Example.rd Example.query Example.failingSearcher
      Example.world =
    Done (Err (errExternal "deadline")) Example.afterFailedSearch.
Proof.
  destruct (C3_failures_are_not_cached Example.rdFailing Example.world
              (Example.b "color") (Example.b "red") Example.squa Example.query
              Example.failingSearcher (errExternal "unsupported"))
    as (Hterm & _ & _ & _).
  destruct (C3_failures_are_not_cached Example.rd Example.world
              (Example.b "color") (Example.b "red") Example.squa Example.query
              Example.failingSearcher (errExternal "deadline"))
    as (_ & _ & _ & Hsearch).
  split.
  - apply Hterm; [vm_compute; eauto| |reflexivity].
    intros _. apply cold_example.
  - apply Hsearch; [vm_compute; eauto| |vm_compute; reflexivity].
    intros _ a c [= <-] Hc. change (Some Example.cache0 = Some c) in Hc.
    by injection Hc as <-.
Defined.

(** * The scenarios of the specification, run *)

(** A term query misses, then hits: one call on the underlying reader. *)
Example scenario_term_miss_then_hit :
  (readThroughSegmentReader.MatchTerm Example.rd (Example.b "color") (Example.b "red") ;;
   readThroughSegmentReader.MatchTerm Example.rd (Example.b "color") (Example.b "red"))
    Example.world =
  Done (Ok Example.redPostings)
    (mkWorld
       (<[0 := PostingsListCache.PutTerm 7%N "color" "red" Example.redPostings
                 Example.cache0]> (store Example.world))
       [EvCacheGet 0 (termKey 7%N (Example.b "color") (Example.b "red"));
        EvReader 7%N (CallMatchTerm (Example.b "color") (Example.b "red"));
        EvCachePut 0 (termKey 7%N (Example.b "color") (Example.b "red"))
          Example.redPostings;
        EvCacheGet 0 (termKey 7%N (Example.b "color") (Example.b "red"))]).
Proof. vm_compute. reflexivity. Qed.

(** After close, nothing of the segment is left and nothing is visited. *)
Example scenario_purge_on_close :
  match ReadThroughSegment.Close Example.rts Example.warm with
  | Done (r', e) w' =>
      (e, ReadThroughSegment.closed r',
       PostingsListCache.holds 7%N <$> store w' !! 0,
       PostingsListCache.holds 7%N <$> store w' !! 1,
       PostingsListCache.CachedPatterns 7%N
         (PostingsListCache.mkCachedPatternsQuery
            (Some PostingsListCache.PatternTypeSearch)) <$> store w' !! 1)
  | Panic => (None, false, None, None, None)
  end = (None, true, Some false, Some false, Some []).
Proof. vm_compute. reflexivity. Qed.

(** A late put for a purged segment is dropped. *)
Example scenario_late_put_is_dropped :
  match
    (res ← ReadThroughSegment.Close Example.rts;
     readThroughSegmentReader.MatchTerm Example.rd (Example.b "color")
       (Example.b "red")) Example.warm
  with
  | Done res w' => (res, PostingsListCache.holds 7%N <$> store w' !! 0)
  | Panic => (Err (errExternal "panic"), None)
  end = (Ok Example.redPostings, Some false).
Proof. vm_compute. reflexivity. Qed.

(** With room for three entries, the fourth put evicts the least
    recently used one; a key that was read in between is kept and the
    next one in line goes instead. *)
Example scenario_capacity_eviction :
  let key n :=
    PostingsListCache.mkKey 7%N PostingsListCache.PatternTypeTerm "f" n in
  let put n c :=
    PostingsListCache.PutTerm 7%N "f" n (postings.mkList [] 1) c in
  let c4 := put "k4" (put "k3" (put "k2" (put "k1" Example.cache0))) in
  let c5 := put "k5" (snd (PostingsListCache.GetTerm 7%N "f" "k2" c4)) in
  let isSome (o : option postings.List) := bool_decide (is_Some o) in
  (isSome (PostingsListCache.peek (key "k1") c4),
   isSome (PostingsListCache.peek (key "k2") c4),
   isSome (PostingsListCache.peek (key "k2") c5),
   isSome (PostingsListCache.peek (key "k3") c5),
   length (PostingsListCache.entries (PostingsListCache.lruTerm c5)),
   bool_decide (PostingsListCache.wf c5)) =
  (false, true, true, false, 3, true).
Proof. vm_compute. reflexivity. Qed.

(** Two segments share a cache; closing one leaves the other's entry. *)
Example scenario_segment_isolation :
  let other := newReadThroughSegmentReader Example.reader 8%N Example.cachesBoth
                 Example.optsAll in
  match
    (readThroughSegmentReader.MatchTerm Example.rd (Example.b "color")
       (Example.b "red") ;;
     readThroughSegmentReader.MatchTerm other (Example.b "color")
       (Example.b "red") ;;
     ReadThroughSegment.Close Example.rts) Example.world
  with
  | Done _ w' =>
      (PostingsListCache.holds 7%N <$> store w' !! 0,
       PostingsListCache.holds 8%N <$> store w' !! 0)
  | Panic => (None, None)
  end = (Some false, Some true).
Proof. vm_compute. reflexivity. Qed.

(** * Further properties of the reader and the segment *)

(** * The caching match methods, case by case *)

Lemma get_fst_Some k c :
  is_Some (fst (PostingsListCache.get k c)) <-> is_Some (PostingsListCache.peek k c).
Proof. by rewrite get_fst. Qed.

(** A match method goes straight to the underlying reader, or is served
    by the cache, or asks the underlying reader after a miss. *)
Lemma runMatch_cases s q w :
  validHandle (SegmentPostingsListCache (readThroughSegmentReader.caches s)) w ->
  let h := SegmentPostingsListCache (readThroughSegmentReader.caches s) in
  let flag := matchFlag (readThroughSegmentReader.opts s) q in
  let u := readThroughSegmentReader.uuid s in
  let k := matchKey u q in
  let ev := EvReader u (matchCall q) in
  let res := underlyingMatch (readThroughSegmentReader.reader s) q in
  (caching h flag = false /\ hits h flag k w = false /\
   runMatch s q w = Done res (delegated ev w)) \/
  (exists a c pl,
     h = Some a /\ flag = true /\ store w !! a = Some c /\
     PostingsListCache.peek k c = Some pl /\ hits h flag k w = true /\
     runMatch s q w = Done (Ok pl) (promoted a k c w)) \/
  (exists a c,
     h = Some a /\ flag = true /\ store w !! a = Some c /\
     PostingsListCache.peek k c = None /\ hits h flag k w = false /\
     runMatch s q w = Done res (filled a k c ev res w)).
Proof.
  intros Hv h flag u k ev res. subst h flag u k ev res. unfold hits.
  destruct (caching _ _) eqn:Hc.
  - right. destruct (proj1 (caching_true _ _) Hc) as [[a Hh] Hf].
    rewrite Hh in Hv |- *. destruct Hv as [c Ha].
    rewrite Ha, get_fst.
    destruct (PostingsListCache.peek _ c) as [pl|] eqn:Hp.
    + left. exists a, c, pl. do 4 (split; [done|]).
      split; [by rewrite bool_decide_eq_true_2|].
      destruct q; simpl in *.
      * by apply MatchRegexp_hit.
      * by apply MatchTerm_hit.
      * by apply MatchField_hit.
    + right. exists a, c. do 4 (split; [done|]).
      split; [rewrite bool_decide_eq_false_2; [done|by intros [? ?]]|].
      destruct q; simpl in *.
      * by apply MatchRegexp_miss.
      * by apply MatchTerm_miss.
      * by apply MatchField_miss.
  - left. split; [done|]. split; [done|].
    destruct q; simpl in *.
    + by apply MatchRegexp_bypass.
    + by apply MatchTerm_bypass.
    + by apply MatchField_bypass.
Qed.

Lemma readerCalls_app u tr tr' :
  readerCalls u (tr ++ tr') = readerCalls u tr + readerCalls u tr'.
Proof. unfold readerCalls. by rewrite List.filter_app, length_app. Qed.

Lemma closeCalls_app u tr tr' :
  closeCalls u (tr ++ tr') = closeCalls u tr + closeCalls u tr'.
Proof. unfold closeCalls. by rewrite List.filter_app, length_app. Qed.

(** X1. A call of [MatchRegexp], [MatchTerm] or [MatchField] through
    valid cache handles finishes, and it calls the underlying reader
    exactly once, except on a cache hit, where it does not call it at
    all; when it is not a hit the answer is the underlying reader's. *)
Theorem X1_underlying_called_once_unless_hit
    (s : readThroughSegmentReader.t) (q : MatchQuery) (w : World) :
  validHandle (SegmentPostingsListCache (readThroughSegmentReader.caches s)) w ->
  exists res w',
    runMatch s q w = Done res w' /\
    readerCalls (readThroughSegmentReader.uuid s) (trace w') =
      readerCalls (readThroughSegmentReader.uuid s) (trace w) +
      (if hits (SegmentPostingsListCache (readThroughSegmentReader.caches s))
            (matchFlag (readThroughSegmentReader.opts s) q)
            (matchKey (readThroughSegmentReader.uuid s) q) w
       then 0 else 1) /\
    (hits (SegmentPostingsListCache (readThroughSegmentReader.caches s))
       (matchFlag (readThroughSegmentReader.opts s) q)
       (matchKey (readThroughSegmentReader.uuid s) q) w = false ->
     res = underlyingMatch (readThroughSegmentReader.reader s) q).
Proof.
  intros Hv.
  destruct (runMatch_cases s q w Hv)
    as [(_ & Hhit & Hrun) | [(a & c & pl & _ & _ & _ & _ & Hhit & Hrun)
                            | (a & c & _ & _ & _ & _ & Hhit & Hrun)]];
    rewrite Hhit, Hrun; eexists _, _; (split; [reflexivity|]).
  - split; [|done]. unfold delegated. simpl. rewrite readerCalls_app.
    f_equal. unfold readerCalls. simpl. by rewrite bool_decide_eq_true_2.
  - split; [|done]. unfold promoted. simpl. rewrite readerCalls_app.
    f_equal.
  - split; [|done]. unfold filled.
    destruct (underlyingMatch _ _); simpl; rewrite readerCalls_app;
      f_equal; unfold readerCalls; simpl; by rewrite bool_decide_eq_true_2.
Qed.

(** One reader method: the store keeps its addresses, only the cache
    behind the segment handle may change, and the events added are not
    those of the segment wrapper. *)
Lemma readerStep_frame op s w :
  validHandle (SegmentPostingsListCache (readThroughSegmentReader.caches s)) w ->
  exists w' evs,
    readerStep op s w = Done tt w' /\
    dom (store w') = dom (store w) /\
    (forall a,
       SegmentPostingsListCache (readThroughSegmentReader.caches s) <> Some a ->
       store w' !! a = store w !! a) /\
    trace w' = trace w ++ evs /\
    Forall (fun e => isSegmentEvent e = false) evs.
Proof.
  intros Hv.
  assert (forall a c c' (m : gmap nat PostingsListCache.t),
            m !! a = Some c ->
            dom (<[a := c']> m) = dom m /\
            forall a', Some a <> Some a' -> <[a := c']> m !! a' = m !! a') as Hins.
  { intros a c c' m Ha. split.
    - by apply dom_insert_lookup_L.
    - intros a' Hne. rewrite lookup_insert_ne; [done|congruence]. }
  destruct op;
    try (eexists _, [_]; split; [reflexivity|];
         split; [done|]; split; [done|]; split; [done|];
         by repeat constructor).
  unfold readerStep, mbind, M_bind, mret, M_ret.
  destruct (runMatch_cases s q w Hv)
    as [(_ & _ & Hrun) | [(a & c & pl & Hh & _ & Ha & _ & _ & Hrun)
                         | (a & c & Hh & _ & Ha & _ & _ & Hrun)]];
    rewrite Hrun.
  - eexists _, [_]. split; [reflexivity|].
    split; [done|]. split; [done|]. split; [done|]. by repeat constructor.
  - eexists _, [_]. split; [reflexivity|]. rewrite Hh. unfold promoted. simpl.
    destruct (Hins a c (snd (PostingsListCache.get
                               (matchKey (readThroughSegmentReader.uuid s) q) c))
                _ Ha) as [Hd Hl].
    split; [done|]. split; [done|]. split; [done|]. by repeat constructor.
  - unfold filled. destruct (underlyingMatch _ _) as [pl|err].
    + eexists _, [_; _; _]. split; [reflexivity|]. rewrite Hh. simpl.
      destruct (Hins a c (PostingsListCache.put
                            (matchKey (readThroughSegmentReader.uuid s) q) pl c)
                  _ Ha) as [Hd Hl].
      split; [done|]. split; [done|]. split; [done|]. by repeat constructor.
    + eexists _, [_; _]. split; [reflexivity|].
      split; [done|]. split; [done|]. split; [done|]. by repeat constructor.
Qed.

(** X2. Over any sequence of reader methods other than [Search], run
    through a valid segment cache handle: every method finishes, the
    store keeps its addresses, no cache but the one behind
    [SegmentPostingsListCache] changes, and the reader never purges a
    cache, never sets the closed flag and never calls the underlying
    segment; closing a reader, in particular, closes only the underlying
    reader. *)
Theorem X2_reader_methods_frame (s : readThroughSegmentReader.t)
    (ops : list ReaderOp) (w : World) :
  validHandle (SegmentPostingsListCache (readThroughSegmentReader.caches s)) w ->
  exists w' evs,
    readerSteps ops s w = Done tt w' /\
    dom (store w') = dom (store w) /\
    (forall a,
       SegmentPostingsListCache (readThroughSegmentReader.caches s) <> Some a ->
       store w' !! a = store w !! a) /\
    trace w' = trace w ++ evs /\
    Forall (fun e => isSegmentEvent e = false) evs.
Proof.
  revert w. induction ops as [|op ops IH]; intros w Hv.
  - exists w, []. split; [done|]. split; [done|]. split; [done|].
    split; [by rewrite app_nil_r|constructor].
  - destruct (readerStep_frame op s w Hv) as (w1 & evs1 & Hrun & Hd & Hl & Ht & He).
    assert (validHandle
              (SegmentPostingsListCache (readThroughSegmentReader.caches s)) w1)
      as Hv1.
    { destruct (SegmentPostingsListCache _) as [a|]; [|done]. simpl in *.
      apply elem_of_dom. rewrite Hd. by apply elem_of_dom. }
    destruct (IH w1 Hv1) as (w2 & evs2 & Hrun2 & Hd2 & Hl2 & Ht2 & He2).
    exists w2, (evs1 ++ evs2). simpl. unfold mbind, M_bind. rewrite Hrun.
    split; [done|]. split; [congruence|].
    split; [intros a Ha; rewrite Hl2, Hl; done|].
    split; [by rewrite Ht2, Ht, app_assoc|by apply Forall_app].
Qed.

(** Every call that a match method makes on a cache goes to the cache
    behind [SegmentPostingsListCache] and names the reader's own segment
    id. *)
Lemma runMatch_scoped (s : readThroughSegmentReader.t) (q : MatchQuery) (w : World) :
  validHandle (SegmentPostingsListCache (readThroughSegmentReader.caches s)) w ->
  exists res w' evs,
    runMatch s q w = Done res w' /\
    trace w' = trace w ++ evs /\
    forall e a u,
      e ∈ evs -> cacheEventAt e = Some (a, u) ->
      SegmentPostingsListCache (readThroughSegmentReader.caches s) = Some a /\
      u = readThroughSegmentReader.uuid s.
Proof.
  intros Hv.
  assert (forall u0, PostingsListCache.segmentUUID (matchKey u0 q) = u0) as Hk
    by (intros u0; by destruct q).
  destruct (runMatch_cases s q w Hv)
    as [(_ & _ & Hrun) | [(a & c & pl & Hh & _ & Ha & _ & _ & Hrun)
                         | (a & c & Hh & _ & Ha & _ & _ & Hrun)]];
    rewrite Hrun.
  - eexists _, _, _. split; [reflexivity|]. split; [reflexivity|].
    intros e a u ->%list_elem_of_singleton. discriminate.
  - eexists _, _, _. split; [reflexivity|]. split; [reflexivity|].
    intros e a' u ->%list_elem_of_singleton [= <- <-]. by rewrite Hk.
  - unfold filled. destruct (underlyingMatch _ _) as [pl|err].
    + eexists _, _, _. split; [reflexivity|]. split; [reflexivity|].
      intros e a' u He.
      repeat (apply elem_of_cons in He as [->|He]); simpl;
        try discriminate; try (intros [= <- <-]; by rewrite Hk).
      by apply elem_of_nil in He.
    + eexists _, _, _. split; [reflexivity|]. split; [reflexivity|].
      intros e a' u He.
      repeat (apply elem_of_cons in He as [->|He]); simpl;
        try discriminate; try (intros [= <- <-]; by rewrite Hk).
      by apply elem_of_nil in He.
Qed.

(** * The segment wrapper, beyond the closed flag *)

(** X3. [Reader] of an open segment calls the underlying segment's
    [Reader] once and touches no cache.  If that call fails, its error
    is returned as it is and there is no reader; if it succeeds, the
    reader returned wraps exactly the underlying reader and carries the
    segment's id, cache handles and options. *)
Theorem X3_reader_of_open_segment (r : ReadThroughSegment.t) (w : World) :
  ReadThroughSegment.closed r = false ->
  (forall e,
     segment.seg_Reader (ReadThroughSegment.segment r) = Err e ->
     ReadThroughSegment.Reader r w =
       Done (Err e)
         (delegated (EvSegment (ReadThroughSegment.uuid r) CallSegReader) w)) /\
  (forall rd,
     segment.seg_Reader (ReadThroughSegment.segment r) = Ok rd ->
     ReadThroughSegment.Reader r w =
       Done
         (Ok (readThroughSegmentReader.mk rd (ReadThroughSegment.opts r)
                (ReadThroughSegment.uuid r) (ReadThroughSegment.caches r)))
         (delegated (EvSegment (ReadThroughSegment.uuid r) CallSegReader) w)).
Proof.
  intros Hopen. unfold ReadThroughSegment.Reader. rewrite Hopen.
  unfold ReadThroughSegment.underlying, emit, mbind, M_bind, mret, M_ret.
  split; intros x Hx; by rewrite Hx.
Qed.

(** What a successful [Reader] tells about the segment and the reader. *)
Lemma Reader_Ok_inv r w s w' :
  ReadThroughSegment.Reader r w = Done (Ok s) w' ->
  ReadThroughSegment.closed r = false /\
  readThroughSegmentReader.uuid s = ReadThroughSegment.uuid r /\
  readThroughSegmentReader.caches s = ReadThroughSegment.caches r /\
  readThroughSegmentReader.opts s = ReadThroughSegment.opts r /\
  segment.seg_Reader (ReadThroughSegment.segment r) =
    Ok (readThroughSegmentReader.reader s).
Proof.
  unfold ReadThroughSegment.Reader.
  destruct (ReadThroughSegment.closed r); [discriminate|].
  unfold ReadThroughSegment.underlying, emit, mbind, M_bind, mret, M_ret.
  destruct (segment.seg_Reader _) as [rd|e]; [|discriminate].
  by intros [= <- _].
Qed.

Lemma purgeStore_dom h u (m : gmap nat PostingsListCache.t) :
  dom (purgeStore h u m) = dom m.
Proof.
  destruct h as [a|]; [|done]. simpl.
  destruct (m !! a) as [c|] eqn:Ha; [|done]. by apply dom_insert_lookup_L.
Qed.

Lemma purgeStore_other h u (m : gmap nat PostingsListCache.t) a :
  h <> Some a -> purgeStore h u m !! a = m !! a.
Proof.
  intros Hne. destruct h as [a'|]; [|done]. simpl.
  destruct (m !! a') as [c|] eqn:Ha; [|done].
  rewrite lookup_insert_ne; [done|congruence].
Qed.

(** X4. [Close] changes no cache but those behind the segment's two
    handles, and [PutCachedSearchPattern] none but the one behind
    [SearchPostingsListCache]; both finish through valid handles and
    leave the addresses of the store as they were. *)
Theorem X4_segment_methods_frame (r : ReadThroughSegment.t) (w : World)
    (queryStr : string) (query : search.Query) (pl : postings.List) :
  validCaches (ReadThroughSegment.caches r) w ->
  (exists res w',
     ReadThroughSegment.Close r w = Done res w' /\
     dom (store w') = dom (store w) /\
     forall a,
       SegmentPostingsListCache (ReadThroughSegment.caches r) <> Some a ->
       SearchPostingsListCache (ReadThroughSegment.caches r) <> Some a ->
       store w' !! a = store w !! a) /\
  (exists w',
     ReadThroughSegment.PutCachedSearchPattern r queryStr query pl w = Done tt w' /\
     dom (store w') = dom (store w) /\
     forall a,
       SearchPostingsListCache (ReadThroughSegment.caches r) <> Some a ->
       store w' !! a = store w !! a).
Proof.
  intros Hv. split.
  - destruct (ReadThroughSegment.closed r) eqn:Hc.
    + rewrite (Close_closed r w Hc). by eexists _, _.
    + rewrite (Close_open r w Hc Hv). eexists _, _. split; [reflexivity|].
      unfold delegated, purgedWorld. simpl. split.
      * by rewrite !purgeStore_dom.
      * intros a H1 H2. by rewrite !purgeStore_other.
  - unfold ReadThroughSegment.PutCachedSearchPattern.
    destruct (ReadThroughSegment.closed r); [by eexists|].
    destruct (isNil _ || negb _) eqn:Hg; [by eexists|].
    destruct Hv as [_ Hv].
    destruct (SearchPostingsListCache _) as [a|]; [|done].
    destruct Hv as [c Ha]. unfold cache_PutSearch.
    rewrite (cachePut_Some _ _ _ _ _ Ha). eexists. split; [reflexivity|].
    simpl. split.
    + by apply dom_insert_lookup_L.
    + intros a' Hne. rewrite lookup_insert_ne; [done|congruence].
Qed.

(** X5. A reader vended by a segment stores only under that segment's id
    and only in that segment's cache, so whatever a match method of the
    reader reads or writes in a cache is covered by a purge that [Close]
    of the segment issues. *)
Theorem X5_reader_entries_are_covered_by_close
    (r : ReadThroughSegment.t) (s : readThroughSegmentReader.t)
    (q : MatchQuery) (w0 w1 w w2 : World) :
  ReadThroughSegment.Reader r w0 = Done (Ok s) w1 ->
  validCaches (ReadThroughSegment.caches r) w ->
  validCaches (ReadThroughSegment.caches r) w2 ->
  exists res w' evs w3,
    runMatch s q w = Done res w' /\
    trace w' = trace w ++ evs /\
    ReadThroughSegment.Close r w2 =
      Done (ReadThroughSegment.setClosed r,
            segment.seg_Close (ReadThroughSegment.segment r)) w3 /\
    forall e a u,
      e ∈ evs -> cacheEventAt e = Some (a, u) ->
      SegmentPostingsListCache (ReadThroughSegment.caches r) = Some a /\
      u = ReadThroughSegment.uuid r /\
      EvCachePurge a u ∈ trace w3.
Proof.
  intros Hrd Hv Hv2.
  destruct (Reader_Ok_inv _ _ _ _ Hrd) as (Hopen & Hu & Hc & _ & _).
  destruct (runMatch_scoped s q w) as (res & w' & evs & Hrun & Ht & Hsc).
  { rewrite Hc. apply Hv. }
  exists res, w', evs. eexists. split; [done|]. split; [done|].
  split; [by apply Close_open|].
  intros e a u He Hat. destruct (Hsc e a u He Hat) as [Hh ->].
  rewrite Hc in Hh. rewrite Hu. split; [done|]. split; [done|].
  unfold delegated, purgedWorld. simpl. rewrite Hh. simpl.
  apply elem_of_app. left. apply elem_of_app. right.
  apply elem_of_cons. right. apply elem_of_cons. by left.
Qed.

(** X6. A search result that was put with [PutCachedSearchPattern] under
    the query's own string is what [Search] on a reader of the same
    segment returns for that query, provided the cache returns what was
    put: the searcher is not run, and the only calls made are the put
    and the lookup, under one and the same key. *)
Theorem X6_precomputed_search_is_served (r : ReadThroughSegment.t)
    (rd : segment.Reader) (q : search.Query) (pl : postings.List)
    (sr : readThroughSegmentReader.Searcher) (w : World)
    (a : addr) (c : PostingsListCache.t) :
  ReadThroughSegment.closed r = false ->
  SearchPostingsListCache (ReadThroughSegment.caches r) = Some a ->
  CacheSearches (ReadThroughSegment.opts r) = true ->
  store w !! a = Some c ->
  PostingsListCache.peek
    (searchKey (ReadThroughSegment.uuid r) (search.Query_String q))
    (PostingsListCache.PutSearch (ReadThroughSegment.uuid r)
       (search.Query_String q) q pl c) = Some pl ->
  (ReadThroughSegment.PutCachedSearchPattern r (search.Query_String q) q pl ;;
   readThroughSegmentReader.Search
     (newReadThroughSegmentReader rd (ReadThroughSegment.uuid r)
        (ReadThroughSegment.caches r) (ReadThroughSegment.opts r)) q sr) w =
  Done (Ok pl)
    (mkWorld
       (<[a := snd (PostingsListCache.get
                      (searchKey (ReadThroughSegment.uuid r) (search.Query_String q))
                      (PostingsListCache.PutSearch (ReadThroughSegment.uuid r)
                         (search.Query_String q) q pl c))]> (store w))
       (trace w ++
        [EvCachePut a
           (searchKey (ReadThroughSegment.uuid r) (search.Query_String q)) pl;
         EvCacheGet a
           (searchKey (ReadThroughSegment.uuid r) (search.Query_String q))])).
Proof.
  intros Hopen Hh Hf Ha Hp.
  unfold mbind, M_bind, ReadThroughSegment.PutCachedSearchPattern.
  rewrite Hopen, Hh, Hf. cbn [isNil orb negb]. unfold cache_PutSearch.
  rewrite (cachePut_Some _ _ _ _ _ Ha).
  erewrite Search_hit; [|exact Hh|exact Hf|apply lookup_insert_eq|exact Hp].
  unfold promoted. simpl. rewrite insert_insert_eq.
  by rewrite <- app_assoc.
Qed.

Lemma forEach_keeps {A} (P : World -> World -> Prop) (fn : A -> M unit) ps :
  (forall w, P w w) -> (forall w1 w2 w3, P w1 w2 -> P w2 w3 -> P w1 w3) ->
  (forall p w x w', fn p w = Done x w' -> P w w') ->
  forall w x w', forEach fn ps w = Done x w' -> P w w'.
Proof.
  intros Hrefl Htrans Hfn. induction ps as [|p ps IH]; intros w x w'; simpl.
  - intros [= _ <-]. apply Hrefl.
  - unfold mbind, M_bind. destruct (fn p w) as [y w1|] eqn:Hp; [|done].
    intros Hrest. eapply Htrans; [by eapply Hfn|by eapply IH].
Qed.

(** X7. [CachedSearchPatterns] reports [CacheSearchesDisabled] exactly
    when the search cache handle is nil or [CacheSearches] is off, and
    then it does nothing else.  Otherwise it lists what the search cache
    holds for this segment's id, restricted to search patterns, whether
    the segment is closed or not; and with a visitor that leaves the
    store alone, it leaves the store alone. *)
Theorem X7_cached_search_patterns (r : ReadThroughSegment.t)
    (fn : CachedPatternForEachFn) (w : World)
    (res : ReadThroughSegment.CachedSearchPatternsResult) (w' : World) :
  ReadThroughSegment.CachedSearchPatterns r fn w = Done res w' ->
  ReadThroughSegment.CacheSearchesDisabled res =
    negb (caching (SearchPostingsListCache (ReadThroughSegment.caches r))
            (CacheSearches (ReadThroughSegment.opts r))) /\
  (ReadThroughSegment.CacheSearchesDisabled res = true ->
   w' = w /\ ReadThroughSegment.CachedPatternsResult res = []) /\
  (ReadThroughSegment.CacheSearchesDisabled res = false ->
   exists a c,
     SearchPostingsListCache (ReadThroughSegment.caches r) = Some a /\
     store w !! a = Some c /\
     ReadThroughSegment.CachedPatternsResult res =
       PostingsListCache.CachedPatterns (ReadThroughSegment.uuid r)
         (PostingsListCache.mkCachedPatternsQuery
            (Some PostingsListCache.PatternTypeSearch)) c) /\
  ((forall p w1 x w2, fn p w1 = Done x w2 -> store w2 = store w1) ->
   store w' = store w).
Proof.
  unfold ReadThroughSegment.CachedSearchPatterns, caching.
  destruct (isNil _ || negb _) eqn:Hg; simpl.
  - intros [= <- <-]. simpl. split; [done|]. split; [done|]. split; [done|done].
  - unfold cache_CachedPatterns, mbind, M_bind, mret, M_ret, callCache.
    destruct (SearchPostingsListCache _) as [a|]; [|done].
    destruct (store w !! a) as [c|] eqn:Ha; [|done].
    set (ps := PostingsListCache.CachedPatterns _ _ c).
    set (w1 := mkWorld _ _).
    destruct (forEach fn ps w1) as [[] w2|] eqn:Hrun; [|done].
    intros [= <- <-]. simpl. split; [done|]. split; [done|]. split.
    + intros _. by exists a, c.
    + intros Hfn.
      assert (store w2 = store w1) as ->.
      { eapply (forEach_keeps (fun x y => store y = store x));
          [done| |exact Hfn|exact Hrun].
        intros ? ? ? ? ?. congruence. }
      unfold w1. simpl. by apply insert_id.
Qed.

(** * The life of a segment *)

(** What [Close] of an open segment does whenever it finishes. *)
Lemma Close_Done_valid r w res w' :
  ReadThroughSegment.closed r = false ->
  ReadThroughSegment.Close r w = Done res w' ->
  validCaches (ReadThroughSegment.caches r) w.
Proof.
  intros Hopen. unfold ReadThroughSegment.Close. rewrite Hopen.
  cbv zeta. unfold mbind at 1 2 3. unfold M_bind at 1 2 3. unfold emit at 1.
  cbn [ReadThroughSegment.setClosed ReadThroughSegment.uuid
    ReadThroughSegment.caches ReadThroughSegment.segment].
  unfold validCaches, cache_PurgeSegment, callCache, mbind, M_bind, mret, M_ret.
  destruct (SegmentPostingsListCache _) as [a1|],
           (SearchPostingsListCache _) as [a2|]; simpl.
  - destruct (store w !! a1) as [c1|] eqn:H1; [|done].
    destruct (PostingsListCache.PurgeSegment _ c1) as [n1 c1']. simpl.
    destruct (decide (a1 = a2)) as [<-|Hne].
    + intros _. rewrite H1. by split.
    + rewrite lookup_insert_ne by done.
      destruct (store w !! a2) as [c2|] eqn:H2; [|done]. by split.
  - destruct (store w !! a1) as [c1|] eqn:H1; [|done]. by split.
  - destruct (store w !! a2) as [c2|] eqn:H2; [|done]. by split.
  - done.
Qed.

Lemma closeCalls_snoc_other u tr e :
  isSegmentClose u e = false -> closeCalls u (tr ++ [e]) = closeCalls u tr.
Proof.
  intros He. rewrite closeCalls_app. unfold closeCalls at 2. simpl.
  rewrite He. simpl. lia.
Qed.

Lemma closeCalls_cons u e tr :
  closeCalls u (e :: tr) = (if isSegmentClose u e then 1 else 0) + closeCalls u tr.
Proof. unfold closeCalls. simpl. by destruct (isSegmentClose u e). Qed.

Lemma closeCalls_purgeEvents u h u' : closeCalls u (purgeEvents h u') = 0.
Proof. by destruct h. Qed.

(** One method: the calls of the underlying [Close] made so far, plus
    one if the segment is still open, stay the same. *)
Lemma step_budget op r w r' w' :
  visitorKeepsOpen (ReadThroughSegment.uuid r) op ->
  step op r w = Done r' w' ->
  ReadThroughSegment.uuid r' = ReadThroughSegment.uuid r /\
  closeCalls (ReadThroughSegment.uuid r) (trace w') +
    (if ReadThroughSegment.closed r' then 0 else 1) =
  closeCalls (ReadThroughSegment.uuid r) (trace w) +
    (if ReadThroughSegment.closed r then 0 else 1).
Proof.
  intros Hq.
  destruct op; unfold step, mbind, M_bind, mret, M_ret;
    try (intros [= <- <-]; split; [done|]; simpl;
         by rewrite closeCalls_snoc_other).
  - (* Reader *)
    unfold ReadThroughSegment.Reader.
    destruct (ReadThroughSegment.closed r) eqn:Hc; simpl.
    + intros [= <- <-]. by rewrite Hc.
    + unfold ReadThroughSegment.underlying, emit, mbind, M_bind, mret, M_ret.
      destruct (segment.seg_Reader _); intros [= <- <-]; rewrite Hc;
        (split; [done|]); simpl; by rewrite closeCalls_snoc_other.
  - (* Close *)
    destruct (ReadThroughSegment.closed r) eqn:Hc.
    + rewrite (Close_closed r w Hc). simpl. intros [= <- <-]. by rewrite Hc.
    + destruct (ReadThroughSegment.Close r w) as [[r1 e] w1|] eqn:Hrun; [|done].
      pose proof (Close_Done_valid _ _ _ _ Hc Hrun) as Hv.
      rewrite (Close_open r w Hc Hv) in Hrun. injection Hrun as <- _ <-.
      simpl. intros [= <- <-]. split; [done|]. simpl.
      rewrite !closeCalls_app, !closeCalls_cons, !closeCalls_app,
        !closeCalls_purgeEvents.
      simpl. rewrite bool_decide_eq_true_2 by done.
      unfold closeCalls at 2. simpl. lia.
  - (* PutCachedSearchPattern *)
    unfold ReadThroughSegment.PutCachedSearchPattern.
    destruct (ReadThroughSegment.closed r) eqn:Hc; simpl.
    + intros [= <- <-]. by rewrite Hc.
    + destruct (isNil _ || negb _); simpl.
      * intros [= <- <-]. by rewrite Hc.
      * unfold cache_PutSearch, cachePut, callCache.
        destruct (SearchPostingsListCache _) as [a|]; [|done].
        destruct (store w !! a) as [c|]; [|done]. simpl.
        intros [= <- <-]. rewrite Hc. split; [done|]. simpl.
        by rewrite closeCalls_snoc_other.
  - (* CachedSearchPatterns *)
    unfold ReadThroughSegment.CachedSearchPatterns.
    destruct (isNil _ || negb _); simpl.
    + by intros [= <- <-].
    + unfold cache_CachedPatterns, mbind, M_bind, mret, M_ret, callCache.
      destruct (SearchPostingsListCache _) as [a|]; [|done].
      destruct (store w !! a) as [c|]; [|done].
      set (ps := PostingsListCache.CachedPatterns _ _ c).
      set (w1 := mkWorld _ _).
      destruct (forEach fn ps w1) as [[] w2|] eqn:Hrun; [|done].
      intros [= <- <-]. split; [done|]. f_equal.
      transitivity (closeCalls (ReadThroughSegment.uuid r) (trace w1)).
      * eapply (forEach_keeps
                  (fun x y => closeCalls (ReadThroughSegment.uuid r) (trace y) =
                              closeCalls (ReadThroughSegment.uuid r) (trace x)));
          [done| |exact Hq|exact Hrun].
        intros ? ? ? ? ?. congruence.
      * unfold w1. simpl. by rewrite closeCalls_snoc_other.
Qed.

(** Over any sequence of methods the balance of [step_budget] holds. *)
Lemma steps_budget ops r w r' w' :
  Forall (visitorKeepsOpen (ReadThroughSegment.uuid r)) ops ->
  steps ops r w = Done r' w' ->
  ReadThroughSegment.uuid r' = ReadThroughSegment.uuid r /\
  closeCalls (ReadThroughSegment.uuid r) (trace w') +
    (if ReadThroughSegment.closed r' then 0 else 1) =
  closeCalls (ReadThroughSegment.uuid r) (trace w) +
    (if ReadThroughSegment.closed r then 0 else 1).
Proof.
  revert r w. induction ops as [|op ops IH]; intros r w Hq; simpl.
  - by intros [= <- <-].
  - unfold mbind, M_bind. destruct (step op r w) as [r1 w1|] eqn:Hs; [|done].
    apply Forall_cons in Hq as [Hop Hops].
    destruct (step_budget _ _ _ _ _ Hop Hs) as [Hu Hb].
    intros Hrest. rewrite <- Hu in Hops.
    destruct (IH r1 w1 Hops Hrest) as [Hu' Hb'].
    split; [congruence|]. rewrite Hu in Hb'. lia.
Qed.

(** X8. Over any sequence of methods of a segment, the calls of [Close]
    on the underlying segment and the open state balance: the number of
    calls made, plus one while the wrapper is open, never changes.  So
    the underlying segment is closed at most once, exactly when the
    wrapper goes from open to closed, and never again by a closed
    wrapper; the wrapper's id does not change either. *)
Theorem X8_underlying_closed_exactly_once (ops : list SegmentOp)
    (r : ReadThroughSegment.t) (w : World) (r' : ReadThroughSegment.t) (w' : World) :
  Forall (visitorKeepsOpen (ReadThroughSegment.uuid r)) ops ->
  steps ops r w = Done r' w' ->
  ReadThroughSegment.uuid r' = ReadThroughSegment.uuid r /\
  closeCalls (ReadThroughSegment.uuid r) (trace w') +
    (if ReadThroughSegment.closed r' then 0 else 1) =
  closeCalls (ReadThroughSegment.uuid r) (trace w) +
    (if ReadThroughSegment.closed r then 0 else 1) /\
  (ReadThroughSegment.closed r = true ->
   closeCalls (ReadThroughSegment.uuid r) (trace w') =
     closeCalls (ReadThroughSegment.uuid r) (trace w)) /\
  closeCalls (ReadThroughSegment.uuid r) (trace w') <=
    closeCalls (ReadThroughSegment.uuid r) (trace w) + 1.
Proof.
  intros Hq Hrun. destruct (steps_budget _ _ _ _ _ Hq Hrun) as [Hu Hb].
  split; [done|]. split; [done|]. split.
  - intros Hc. pose proof (steps_closed _ _ _ _ _ Hc Hrun) as Hc'.
    rewrite Hc, Hc' in Hb. lia.
  - destruct (ReadThroughSegment.closed r), (ReadThroughSegment.closed r'); lia.
Qed.


(** X10. A segment made by [NewReadThroughSegment] is open, and once
    [Close] has been called on it, whatever is called afterwards, more
    calls of [Close] included, the wrapper is closed and the underlying
    segment has been closed exactly once. *)
Theorem X10_fresh_segment_closes_once (seg : segment.ImmutableSegment)
    (cs : ReadThroughSegmentCaches) (o : ReadThroughSegmentOptions) (u : UUID)
    (ops : list SegmentOp) (w : World) (r' : ReadThroughSegment.t) (w' : World) :
  Forall (visitorKeepsOpen u) ops ->
  steps (OpClose :: ops) (NewReadThroughSegment seg cs o u) w = Done r' w' ->
  ReadThroughSegment.closed (NewReadThroughSegment seg cs o u) = false /\
  ReadThroughSegment.closed r' = true /\
  closeCalls u (trace w') = closeCalls u (trace w) + 1.
Proof.
  intros Hq Hrun. split; [done|].
  assert (ReadThroughSegment.closed r' = true) as Hc'.
  { cbn [steps] in Hrun. unfold mbind at 1, M_bind at 1 in Hrun.
    destruct (step OpClose (NewReadThroughSegment seg cs o u) w)
      as [r1 w1|] eqn:Hs; [|done].
    eapply steps_closed; [|exact Hrun].
    unfold step, mbind, M_bind, mret, M_ret in Hs.
    destruct (ReadThroughSegment.Close (NewReadThroughSegment seg cs o u) w)
      as [[r2 e] w2|] eqn:Hcl; [|done].
    injection Hs as <- <-.
    assert (ReadThroughSegment.closed (NewReadThroughSegment seg cs o u) = false)
      as Hopen by done.
    pose proof (Close_Done_valid _ _ _ _ Hopen Hcl) as Hv.
    rewrite (Close_open _ w Hopen Hv) in Hcl. by injection Hcl as <- _ _. }
  split; [done|].
  destruct (steps_budget (OpClose :: ops) (NewReadThroughSegment seg cs o u)
              w r' w') as [_ Hb]; [by constructor|done|].
  rewrite Hc' in Hb. simpl in Hb. lia.
Qed.

(** X11. [Search] is a read-through over the searcher: after a miss on
    which the searcher succeeds, the postings are returned and put under
    the query's key, and the next [Search] for that query returns the
    same postings whatever searcher it is given, without running it,
    provided the cache returns what was put. *)
Theorem X11_search_is_read_through (s : readThroughSegmentReader.t)
    (q : search.Query) (sr sr' : readThroughSegmentReader.Searcher)
    (w w1 : World) (a : addr) (c c1 : PostingsListCache.t) (pl : postings.List) :
  SearchPostingsListCache (readThroughSegmentReader.caches s) = Some a ->
  CacheSearches (readThroughSegmentReader.opts s) = true ->
  store w !! a = Some c ->
  PostingsListCache.peek
    (searchKey (readThroughSegmentReader.uuid s) (search.Query_String q)) c = None ->
  sr s (delegated
          (EvCacheGet a
             (searchKey (readThroughSegmentReader.uuid s) (search.Query_String q)))
          w) = Done (Ok pl) w1 ->
  store w1 !! a = Some c1 ->
  PostingsListCache.peek
    (searchKey (readThroughSegmentReader.uuid s) (search.Query_String q))
    (PostingsListCache.put
       (searchKey (readThroughSegmentReader.uuid s) (search.Query_String q)) pl c1)
    = Some pl ->
  exists w2 w3,
    readThroughSegmentReader.Search s q sr w = Done (Ok pl) w2 /\
    trace w2 =
      trace w1 ++
      [EvCachePut a
         (searchKey (readThroughSegmentReader.uuid s) (search.Query_String q)) pl] /\
    readThroughSegmentReader.Search s q sr' w2 = Done (Ok pl) w3 /\
    trace w3 =
      trace w2 ++
      [EvCacheGet a
         (searchKey (readThroughSegmentReader.uuid s) (search.Query_String q))].
Proof.
  intros Hh Hf Ha Hmiss Hsr Ha1 Hp.
  eexists _, _. split.
  { rewrite (Search_miss s w q sr a c Hh Hf Ha Hmiss), Hsr, Ha1. reflexivity. }
  split; [reflexivity|]. split.
  { eapply Search_hit; [exact Hh|exact Hf|apply lookup_insert_eq|exact Hp]. }
  reflexivity.
Qed.

(** * The further properties, on the example segment *)

Lemma X1_witness :
  exists res w',
    runMatch Example.rd (QueryTerm (Example.b "color") (Example.b "red"))
      Example.warm = Done res w' /\
    readerCalls 7%N (trace w') = readerCalls 7%N (trace Example.warm) /\
    exists res2 w2,
      runMatch Example.rd (QueryTerm (Example.b "color") (Example.b "red"))
        Example.world = Done res2 w2 /\
      readerCalls 7%N (trace w2) = readerCalls 7%N (trace Example.world) + 1 /\
      res2 = Ok Example.redPostings.
Proof.
  destruct (X1_underlying_called_once_unless_hit Example.rd
              (QueryTerm (Example.b "color") (Example.b "red")) Example.warm)
    as (res & w' & Hrun & Hcount & _); [vm_compute; eauto|].
  destruct (X1_underlying_called_once_unless_hit Example.rd
              (QueryTerm (Example.b "color") (Example.b "red")) Example.world)
    as (res2 & w2 & Hrun2 & Hcount2 & Hres2); [vm_compute; eauto|].
  assert (hits (Some 0) true (termKey 7%N (Example.b "color") (Example.b "red"))
            Example.warm = true) as Hhit by (vm_compute; reflexivity).
  assert (hits (Some 0) true (termKey 7%N (Example.b "color") (Example.b "red"))
            Example.world = false) as Hmiss by (vm_compute; reflexivity).
  change (hits _ _ _ Example.warm) with
    (hits (Some 0) true (termKey 7%N (Example.b "color") (Example.b "red"))
       Example.warm) in Hcount.
  change (hits _ _ _ Example.world) with
    (hits (Some 0) true (termKey 7%N (Example.b "color") (Example.b "red"))
       Example.world) in Hcount2, Hres2.
  rewrite Hhit in Hcount. rewrite Hmiss in Hcount2.
  exists res, w'. split; [exact Hrun|].
  split; [exact (eq_trans Hcount (Nat.add_0_r _))|].
  exists res2, w2. split; [exact Hrun2|]. split; [exact Hcount2|].
  rewrite (Hres2 Hmiss). vm_compute. reflexivity.
Defined.

Lemma X2_witness :
  exists w' evs,
    readerSteps Scenario.readerOps Example.rd Example.world = Done tt w' /\
    dom (store w') = dom (store Example.world) /\
    (forall a, Some 0 <> Some a -> store w' !! a = store Example.world !! a) /\
    trace w' = trace Example.world ++ evs /\
    Forall (fun e => isSegmentEvent e = false) evs.
Proof.
  apply (X2_reader_methods_frame Example.rd Scenario.readerOps Example.world).
  vm_compute. eauto.
Defined.

Lemma X3_witness :
  ReadThroughSegment.Reader Example.rts Example.warm =
    Done (Ok Example.rd) (delegated (EvSegment 7%N CallSegReader) Example.warm).
Proof.
  exact (proj2 (X3_reader_of_open_segment Example.rts Example.warm eq_refl)
           Example.reader eq_refl).
Defined.

Lemma X4_witness :
  (exists res w',
     ReadThroughSegment.Close Example.rts Example.warm = Done res w' /\
     dom (store w') = dom (store Example.warm) /\
     forall a, Some 0 <> Some a -> Some 1 <> Some a ->
       store w' !! a = store Example.warm !! a) /\
  (exists w',
     ReadThroughSegment.PutCachedSearchPattern Example.rts "q" Example.query
       Example.redPostings Example.warm = Done tt w' /\
     dom (store w') = dom (store Example.warm) /\
     forall a, Some 1 <> Some a -> store w' !! a = store Example.warm !! a).
Proof.
  apply (X4_segment_methods_frame Example.rts Example.warm "q" Example.query
           Example.redPostings).
  split; vm_compute; eauto.
Defined.

Lemma X5_witness :
  exists res w' evs w3,
    runMatch Example.rd (QueryTerm (Example.b "color") (Example.b "red"))
      Example.world = Done res w' /\
    trace w' = trace Example.world ++ evs /\
    ReadThroughSegment.Close Example.rts w' =
      Done (ReadThroughSegment.setClosed Example.rts, None) w3 /\
    forall e a u,
      e ∈ evs -> cacheEventAt e = Some (a, u) ->
      Some 0 = Some a /\ u = 7%N /\ EvCachePurge a u ∈ trace w3.
Proof.
  assert (exists w', Example.after
                       (runMatch Example.rd
                          (QueryTerm (Example.b "color") (Example.b "red")))
                       Example.world = w') as [wm Hwm] by eauto.
  destruct (X5_reader_entries_are_covered_by_close Example.rts Example.rd
              (QueryTerm (Example.b "color") (Example.b "red"))
              Example.world (delegated (EvSegment 7%N CallSegReader) Example.world)
              Example.world wm)
    as (res & w' & evs & w3 & Hrun & Ht & Hclose & Hcover).
  - reflexivity.
  - split; vm_compute; eauto.
  - subst wm. split; vm_compute; eauto.
  - assert (w' = wm) as ->.
    { subst wm. unfold Example.after. by rewrite Hrun. }
    by exists res, wm, evs, w3.
Defined.

Lemma X6_witness :
  (ReadThroughSegment.PutCachedSearchPattern Example.rts
     (search.Query_String Example.query) Example.query Example.redPostings ;;
   readThroughSegmentReader.Search Example.rd Example.query Example.failingSearcher)
    Example.world =
  Done (Ok Example.redPostings)
    (mkWorld
       (<[1 := snd (PostingsListCache.get
                      (searchKey 7%N (search.Query_String Example.query))
                      (PostingsListCache.PutSearch 7%N
                         (search.Query_String Example.query) Example.query
                         Example.redPostings Example.cache0))]>
          (store Example.world))
       (trace Example.world ++
        [EvCachePut 1 (searchKey 7%N (search.Query_String Example.query))
           Example.redPostings;
         EvCacheGet 1 (searchKey 7%N (search.Query_String Example.query))])).
Proof.
  apply (X6_precomputed_search_is_served Example.rts Example.reader Example.query
           Example.redPostings Example.failingSearcher Example.world 1
           Example.cache0); vm_compute; reflexivity.
Defined.

Lemma X7_witness :
  ReadThroughSegment.CacheSearchesDisabled Scenario.listingResult = false /\
  store Scenario.listingWorld = store Example.warm /\
  length (ReadThroughSegment.CachedPatternsResult Scenario.listingResult) = 1.
Proof.
  destruct (X7_cached_search_patterns Example.rts (fun _ => mret tt) Example.warm
              Scenario.listingResult Scenario.listingWorld)
    as (Hflag & _ & Hlist & Hstore); [vm_compute; reflexivity|].
  split; [exact Hflag|]. split.
  - apply Hstore. by intros p w1 x w2 [= _ <-].
  - vm_compute. reflexivity.
Defined.

Lemma visitors_example : Forall (visitorKeepsOpen 7%N) Scenario.ops.
Proof.
  unfold Scenario.ops. repeat constructor. by intros p w x w' [= _ <-].
Qed.

Lemma X8_witness :
  closeCalls 7%N (trace Scenario.afterOps) = closeCalls 7%N (trace Example.world) + 1.
Proof.
  destruct (X8_underlying_closed_exactly_once Scenario.ops Scenario.emptyRts
              Example.world (ReadThroughSegment.setClosed Scenario.emptyRts)
              Scenario.afterOps)
    as (_ & Hb & _ & _).
  - exact visitors_example.
  - vm_compute. reflexivity.
  - change (closeCalls 7%N (trace Scenario.afterOps) + 0 =
            closeCalls 7%N (trace Example.world) + 1) in Hb.
    by rewrite Nat.add_0_r in Hb.
Defined.


Lemma X10_witness :
  ReadThroughSegment.closed Scenario.emptyRts = false /\
  ReadThroughSegment.closed (ReadThroughSegment.setClosed Scenario.emptyRts) = true /\
  closeCalls 7%N (trace Scenario.afterCloses) =
    closeCalls 7%N (trace Example.world) + 1.
Proof.
  apply (X10_fresh_segment_closes_once Scenario.emptySeg Example.cachesBoth
           Example.optsAll 7%N [OpClose; OpReader] Example.world
           (ReadThroughSegment.setClosed Scenario.emptyRts) Scenario.afterCloses).
  - repeat constructor.
  - vm_compute. reflexivity.
Defined.

Lemma X11_witness :
  exists w2 w3,
    readThroughSegmentReader.Search Example.rd Example.query Example.searcher
      Example.world = Done (Ok Example.redPostings) w2 /\
    trace w2 =
      trace Scenario.searcherEnd ++
      [EvCachePut 1 (searchKey 7%N (search.Query_String Example.query))
         Example.redPostings] /\
    readThroughSegmentReader.Search Example.rd Example.query
      Example.failingSearcher w2 = Done (Ok Example.redPostings) w3 /\
    trace w3 =
      trace w2 ++ [EvCacheGet 1 (searchKey 7%N (search.Query_String Example.query))].
Proof.
  apply (X11_search_is_read_through Example.rd Example.query Example.searcher
           Example.failingSearcher Example.world Scenario.searcherEnd 1
           Example.cache0 Example.cache0 Example.redPostings);
    vm_compute; reflexivity.
Defined.
